(** * The Tailwind CSS syntax tree: walker and printer

    A shallow embedding of [packages/tailwindcss/src/ast.ts]: the node model,
    the self-modifying tree walker [walk] and the printer [toCss], followed
    by the properties of the design document that were checked against them.

    Conventions of the embedding.
    - The node model and the printer work on values: a JavaScript array of
      nodes is a [list AstNode], a node object is a value of [AstNode].  The
      design document's invariant that the tree is a tree (no node is shared
      between two parents) is what makes this exact for the printer.
    - Mutation is explicit state passing: a function that mutates an array or
      a node returns its contents after the call.
    - The walker is embedded twice.  [walk] works on values, for visitors
      that edit the node they are handed and call [replaceWith] once at
      most, with nodes that are not objects of the tree.  [Objects.walk]
      works on a store in which arrays and node objects have identities: the
      visitor may change any object, call [replaceWith] any number of times
      with any nodes, and throw; the index may become negative, and the
      loop then hands [undefined] over.  Replacement is studied there.
    - Both loops go on for as long as the visitor keeps replacing nodes, so
      they are given fuel; [None] means that the fuel ran out, never a
      result. *)

From Stdlib Require Import String Ascii Lia.
From stdpp Require Import base list strings gmap.

Set Warnings "-register-all".
Set Default Proof Using "Type".

(** ** Position model *)

Record Location : Type := mkLocation { line : nat; column : nat }.

Record Range : Type := mkRange { range_start : Location; range_end : Location }.

(** [null] is [None]. *)
Record Mapping : Type := mkMapping {
  source : option Range;
  destination : option Range
}.

(** ** Node model *)

(** [AstNode = Rule | Declaration | Comment], discriminated by [kind].  The
    type of [Declaration.value] is [string], but the printer tests it against
    [undefined] and [null]: a missing value is [None]. *)
Inductive AstNode : Type :=
| Rule (selector : string) (nodes : list AstNode) (mappings : list Mapping)
| Declaration (property : string) (value : option string) (important : bool)
    (mappings : list Mapping)
| Comment (value : string) (mappings : list Mapping).

(** The constructors [rule], [decl] and [comment], called without their
    optional last argument: [mappings = []]. *)
Definition rule (selector : string) (nodes : list AstNode) : AstNode :=
  Rule selector nodes [].

Definition decl (property value : string) : AstNode :=
  Declaration property (Some value) false [].

Definition comment (value : string) : AstNode := Comment value [].

(** [node.nodes] where the node is a rule; the other kinds have no children. *)
Definition children (node : AstNode) : list AstNode :=
  match node with
  | Rule _ nodes _ => nodes
  | _ => []
  end.

(** Induction on trees: a property of the children of a rule may be used to
    prove it of the rule. *)
Fixpoint AstNode_forall_ind (P : AstNode → Prop)
    (HRule : ∀ selector nodes mappings,
        Forall P nodes → P (Rule selector nodes mappings))
    (HDeclaration : ∀ property value important mappings,
        P (Declaration property value important mappings))
    (HComment : ∀ value mappings, P (Comment value mappings))
    (node : AstNode) : P node :=
  match node with
  | Rule selector nodes mappings =>
    HRule selector nodes mappings
      ((fix all (l : list AstNode) : Forall P l :=
          match l with
          | [] => @List.Forall_nil _ P
          | n :: l =>
            @List.Forall_cons _ P n l
              (AstNode_forall_ind P HRule HDeclaration HComment n) (all l)
          end) nodes)
  | Declaration property value important mappings =>
    HDeclaration property value important mappings
  | Comment value mappings => HComment value mappings
  end.

(** The nodes of a tree in depth-first pre-order: a rule, then its children
    from first to last. *)
Fixpoint preorder (node : AstNode) : list AstNode :=
  node :: match node with
          | Rule _ nodes _ => flat_map preorder nodes
          | _ => []
          end.

Definition preorder_all (ast : list AstNode) : list AstNode :=
  flat_map preorder ast.

(** The number of nodes of a tree and of a forest. *)
Fixpoint count_nodes (node : AstNode) : nat :=
  S match node with
    | Rule _ nodes _ => list_sum (map count_nodes nodes)
    | _ => 0
    end.

Definition count_all (ast : list AstNode) : nat :=
  list_sum (map count_nodes ast).

(** ** Tree walker *)

Inductive WalkAction : Type := Continue | Skip | Stop.

(** The argument of [replaceWith]: [AstNode | AstNode[]]. *)
Inductive Replacement : Type :=
| One (newNode : AstNode)
| Many (newNodes : list AstNode).

(** [Array.isArray(newNode) ? newNode : [newNode]] *)
Definition spread (newNode : Replacement) : list AstNode :=
  match newNode with
  | One n => [n]
  | Many ns => ns
  end.

(** [l.splice(start, deleteCount, ...items)] for [start ≤ l.length]. *)
Definition splice {A} (l : list A) (start deleteCount : nat) (items : list A)
  : list A :=
  take start l ++ items ++ drop (start + deleteCount) l.

(** What one call [visit(node, { replaceWith })] did.  The visitor is a
    closure with state of its own ([St]); it may edit the node object it is
    handed, call [replaceWith], and return a directive or nothing.
    - [edited]: the node object when the call returns (the node itself when
      the visitor changed nothing);
    - [replaceWith]: the argument of the call to [replaceWith], [None] when
      the visitor did not call it.  One call per visit at most is what this
      view has (a second call in the same visit splices at the index already
      decremented: [Objects.Call] has any number of calls);
    - [returned]: the value returned, [None] for [undefined]. *)
Record Visited (St : Type) : Type := mkVisited {
  edited : AstNode;
  replaceWith : option Replacement;
  returned : option WalkAction;
  visitor_state : St
}.
Arguments mkVisited {St}.
Arguments edited {St}.
Arguments replaceWith {St}.
Arguments returned {St}.
Arguments visitor_state {St}.

(** One iteration of the [for] loop of one activation of [walk], as observed
    from outside: the index, the node handed to the visitor, the node object
    after the visit, whether [replaceWith] was called, the directive, and the
    child list the iteration recursed into, if it did. *)
Record Iteration : Type := mkIteration {
  at_index : nat;
  handed : AstNode;
  handed_after : AstNode;
  did_replace : bool;
  directive : WalkAction;
  descended : option (list AstNode)
}.

(** The outcome of an activation of [walk]: the array and the visitor's
    state when it returns, every node the visitor was called on, in call
    order (nested activations included), and this activation's iterations. *)
Record Walked (St : Type) : Type := mkWalked {
  ast_after : list AstNode;
  state_after : St;
  visits : list AstNode;
  iterations : list Iteration
}.
Arguments mkWalked {St}.
Arguments ast_after {St}.
Arguments state_after {St}.
Arguments visits {St}.
Arguments iterations {St}.

(** The array when the visitor has returned: spliced by [replaceWith], or
    else holding the node object as the visitor left it. *)
Definition after_visit (ast : list AstNode) (i : nat) {St} (v : Visited St)
  : list AstNode :=
  match replaceWith v with
  | Some newNode => splice ast i 1 (spread newNode)
  | None => <[i := edited v]> ast
  end.

(** Whether the visitor called [replaceWith]. *)
Definition called_replaceWith {St} (v : Visited St) : bool :=
  bool_decide (is_Some (replaceWith v)).

(** The index of the next iteration: [replaceWith] decrements [i] and the
    loop header increments it. *)
Definition next_index (i : nat) {St} (v : Visited St) : nat :=
  if called_replaceWith v then i else i + 1.

(** The record of the iteration at index [i] that handed [node] over and
    recursed into [kids], if it did. *)
Definition iteration (i : nat) (node : AstNode) {St} (v : Visited St)
    (kids : option (list AstNode)) : Iteration :=
  mkIteration i node (edited v) (called_replaceWith v)
    (default Continue (returned v)) kids.

Section Walker.
Context {St : Type}.
Variable visit : St → AstNode → Visited St.

(** The loop of [walk] from index [i] on.  The local [node] is read before
    the visit and never again, so the recursion enters the children of the
    node object that was visited, whether or not it is still in [ast].
    [return] leaves this activation only: the caller ignores the result of
    the recursive call.  A node value that [replaceWith] puts in the array
    is a value of its own: where the code puts an object of the tree at a
    second place, so that the walk of one is seen at the other, this view
    has two copies, and [Objects.walk_from] is the one to use. *)
Fixpoint walk_from (fuel : nat) (ast : list AstNode) (i : nat) (s : St)
  : option (Walked St) :=
  match fuel with
  | 0 => None
  | S fuel =>
    match ast !! i with
    | None => (* [i < ast.length] is false *)
      Some (mkWalked ast s [] [])
    | Some node =>
      let v := visit s node in
      let ast := after_visit ast i v in
      match default Continue (returned v) with
      | Stop => (* [return] *)
        Some (mkWalked ast (visitor_state v) [node] [iteration i node v None])
      | Skip => (* [continue] *)
        rest ← walk_from fuel ast (next_index i v) (visitor_state v);
        Some (mkWalked (ast_after rest) (state_after rest)
                (node :: visits rest)
                (iteration i node v None :: iterations rest))
      | Continue =>
        match edited v with
        | Rule selector nodes mappings => (* [walk(node.nodes, visit)] *)
          inner ← walk_from fuel nodes 0 (visitor_state v);
          (* the recursion splices the child array of the node object,
             which is still at [i] unless it was replaced *)
          let ast :=
            if called_replaceWith v then ast
            else <[i := Rule selector (ast_after inner) mappings]> ast in
          rest ← walk_from fuel ast (next_index i v) (state_after inner);
          Some (mkWalked (ast_after rest) (state_after rest)
                  (node :: visits inner ++ visits rest)
                  (iteration i node v (Some nodes) :: iterations rest))
        | _ =>
          rest ← walk_from fuel ast (next_index i v) (visitor_state v);
          Some (mkWalked (ast_after rest) (state_after rest)
                  (node :: visits rest)
                  (iteration i node v None :: iterations rest))
        end
      end
    end
  end.

Definition walk (fuel : nat) (ast : list AstNode) (s : St)
  : option (Walked St) :=
  walk_from fuel ast 0 s.
End Walker.

(** The same loop as a relation between the array, the index and the
    visitor's state on one side and the outcome on the other, one rule for
    each way an iteration can go.  It holds of every result of [walk_from]
    ([walk_from_walks] below) and is what the properties of the walk are
    proved by induction on. *)
Section Walks.
Context {St : Type}.
Variable visit : St → AstNode → Visited St.

End Walks.

(** ** Printer *)

Definition newline : string := String "010"%char "".

(** [s.repeat(count)] *)
Fixpoint repeat_string (s : string) (count : nat) : string :=
  match count with
  | 0 => ""
  | S count => s +:+ repeat_string s count
  end.

(** [s.split(separator)] for a separator of one character: the pieces
    between the separators, one more than there are separators. *)
Fixpoint split (separator : ascii) (s : string) : list string :=
  match s with
  | "" => [""]
  | String c s =>
    if bool_decide (c = separator) then "" :: split separator s
    else match split separator s with
         | piece :: pieces => String c piece :: pieces
         | [] => [String c ""]
         end
  end.

(** The state a call of [toCss] closes over: the variables [atRoots] and
    [seenAtProperties], and the cursor object [location], which is
    [undefined] ([None]) when destinations are not tracked. *)
Record Printer : Type := mkPrinter {
  atRoots : list AstNode;
  seenAtProperties : gset string;
  location : option Location
}.

(** The mapping pushed on a node: no source, and an empty destination range
    at the cursor's line and the width of the indentation. *)
Definition destination_at (loc : Location) (indent : string) : Mapping :=
  mkMapping None
    (Some (mkRange (mkLocation (line loc) (String.length indent))
                   (mkLocation (line loc) (String.length indent)))).

(** [if (location) node.mappings.push({ source: null, destination: ... })] *)
Definition push_destination (mappings : list Mapping) (indent : string)
    (p : Printer) : list Mapping :=
  match location p with
  | Some loc => mappings ++ [destination_at loc indent]
  | None => mappings
  end.

(** [if (location) location.line += lines] *)
Definition advance (lines : nat) (p : Printer) : Printer :=
  match location p with
  | Some loc =>
    mkPrinter (atRoots p) (seenAtProperties p)
      (Some (mkLocation (line loc + lines) (column loc)))
  | None => p
  end.

(** [node.selector[0] === '@'] *)
Definition at_rule (selector : string) : bool :=
  bool_decide (String.get 0 selector = Some "@"%char).

(** [1 + value.split('\n').length - 1] *)
Definition lines_of_value (value : string) : nat :=
  1 + length (split "010"%char value) - 1.

(** [stringify(node, { depth, location })]: the text, the node object after
    the call (its mappings may have grown) and the state after the call.
    The branches are tried in the order of the source. *)
Fixpoint stringify (depth : nat) (node : AstNode) (p : Printer) {struct node}
  : string * AstNode * Printer :=
  let indent := repeat_string "  " depth in
  match node with
  | Rule selector nodes mappings =>
    if bool_decide (selector = "@at-root") then
      ("", node, mkPrinter (atRoots p ++ nodes) (seenAtProperties p) (location p))
    else if bool_decide (selector = "@tailwind utilities") then
      let '(css, nodes', p') :=
        (fix all (nodes : list AstNode) (p : Printer) {struct nodes} :=
           match nodes with
           | [] => ("", [], p)
           | child :: nodes =>
             let '(css, child', p) := stringify depth child p in
             let '(css', nodes', p) := all nodes p in
             (css +:+ css', child' :: nodes', p)
           end) nodes p in
      (css, Rule selector nodes' mappings, p')
    else if at_rule selector && bool_decide (length nodes = 0) then
      (indent +:+ selector +:+ ";" +:+ newline,
       Rule selector nodes (push_destination mappings indent p),
       advance 1 p)
    else if at_rule selector && String.prefix "@property " selector
            && bool_decide (depth = 0)
            && bool_decide (selector ∈ seenAtProperties p) then
      ("", node, p)
    else
      let p :=
        if at_rule selector && String.prefix "@property " selector
           && bool_decide (depth = 0)
        then mkPrinter (atRoots p) ({[selector]} ∪ seenAtProperties p)
               (location p)
        else p in
      let css := indent +:+ selector +:+ " {" +:+ newline in
      let mappings' := push_destination mappings indent p in
      let p := advance 1 p in
      let '(inner, nodes', p) :=
        (fix all (nodes : list AstNode) (p : Printer) {struct nodes} :=
           match nodes with
           | [] => ("", [], p)
           | child :: nodes =>
             let '(css, child', p) := stringify (depth + 1) child p in
             let '(css', nodes', p) := all nodes p in
             (css +:+ css', child' :: nodes', p)
           end) nodes p in
      let css := css +:+ inner in
      let css := css +:+ indent +:+ "}" +:+ newline in
      (css, Rule selector nodes' mappings', advance 1 p)
  | Comment value mappings =>
    (indent +:+ "/*" +:+ value +:+ "*/" +:+ newline,
     Comment value (push_destination mappings indent p),
     advance (lines_of_value value) p)
  | Declaration property value important mappings =>
    match value with
    | Some text =>
      if bool_decide (property ≠ "--tw-sort") then
        (indent +:+ property +:+ ": " +:+ text
           +:+ (if important then "!important" else "") +:+ ";" +:+ newline,
         Declaration property value important
           (push_destination mappings indent p),
         advance (lines_of_value text) p)
      else ("", node, p)
    | None => ("", node, p)
    end
  end.

(** [stringifyAll(nodes, { depth, location })]: the texts of the nodes, in
    order, one after the other.  It is the loop that [stringify] runs on the
    children of a rule. *)
Definition stringifyAll (depth : nat)
  : list AstNode → Printer → string * list AstNode * Printer :=
  fix all (nodes : list AstNode) (p : Printer) {struct nodes} :=
    match nodes with
    | [] => ("", [], p)
    | child :: nodes =>
      let '(css, child', p) := stringify depth child p in
      let '(css', nodes', p) := all nodes p in
      (css +:+ css', child' :: nodes', p)
    end.

(** What a call of [toCss] leaves behind: the text returned; the array it
    was given, after the call; the nodes that were in [atRoots] when the
    second [stringifyAll] started, after that call (they are the very child
    objects of the [@at-root] rules of the tree: [concat] copies references,
    so what is pushed on them shows here and not in [tree]); and the state
    when the call returns. *)
Record Printed : Type := mkPrinted {
  css : string;
  tree : list AstNode;
  hoisted : list AstNode;
  final : Printer
}.

(** The state that a call of [toCss] starts from: [atRoots = []],
    [seenAtProperties = new Set()], and the cursor [{ line: 1, column: 0 }]
    when [trackDestination] is set, [undefined] otherwise. *)
Definition initial (trackDestination : bool) : Printer :=
  mkPrinter [] ∅ (if trackDestination then Some (mkLocation 1 0) else None).

(** [toCss(ast, { trackDestination })].  The second [stringifyAll] iterates
    over the array that [atRoots] holds when it is called; [concat] builds a
    new array each time, so what that pass adds to [atRoots] is in [final]
    and is not iterated over. *)
Definition toCss (ast : list AstNode) (trackDestination : bool) : Printed :=
  let '(css, ast', p) := stringifyAll 0 ast (initial trackDestination) in
  let '(css', atRoots', p') := stringifyAll 0 (atRoots p) p in
  mkPrinted (css +:+ css') ast' atRoots' p'.

(** ** Visitors of the design document's properties *)

Definition never_replaces {St} (visit : St → AstNode → Visited St) : Prop :=
  ∀ s node, replaceWith (visit s node) = None.

(** The visitor may edit the node it is handed, but not its child list. *)
Definition keeps_children {St} (visit : St → AstNode → Visited St) : Prop :=
  ∀ s node, children (edited (visit s node)) = children node.

Definition is_declaration (node : AstNode) : bool :=
  match node with
  | Declaration _ _ _ _ => true
  | _ => false
  end.

(** The forest of the [Stop] property: ten nodes, the third in pre-order
    inside the first rule. *)
Definition ten_nodes : list AstNode :=
  [ rule ".a" [decl "color" "red"; decl "color" "green"; decl "color" "blue"];
    rule ".b" [decl "margin" "0"; decl "padding" "0"];
    decl "top" "0";
    comment " x ";
    decl "left" "0" ].

(** Ten declarations at the top level. *)
Definition ten_flat : list AstNode :=
  replicate 10 (decl "color" "red").

(** The visitor of the [Stop] property: it counts its calls and returns
    [Stop] from the third one, nothing from the others. *)
Definition stop_on_third (calls : nat) (node : AstNode) : Visited nat :=
  mkVisited node None (if bool_decide (calls = 2) then Some Stop else None)
    (calls + 1).


(** ** Forests of the printer's properties *)

(** An [@at-root] rule inside the children of an [@at-root] rule. *)
Definition nested_at_root : list AstNode :=
  [ rule "@at-root" [ rule "@at-root" [ decl "color" "red" ] ] ].

(** An [@at-root] rule inside a rule inside the children of an [@at-root]
    rule. *)
Definition at_root_below_hoisted_rule : list AstNode :=
  [ rule "@at-root" [ rule ".a" [ rule "@at-root" [ decl "color" "red" ] ] ] ].

(** A rule whose selector list is written on two lines, and a comment after
    it. *)
Definition two_line_selector : list AstNode :=
  [ rule (".a," +:+ newline +:+ ".b") [ decl "color" "red" ];
    comment " x " ].

(** A comment whose value has one newline in it, and a declaration after
    it. *)
Definition two_line_comment : list AstNode :=
  [ comment (" a" +:+ newline +:+ "b "); decl "color" "red" ].

(** The number of newline characters of a string. *)
Definition newlines (s : string) : nat :=
  length (filter (λ c, c = "010"%char) (list_ascii_of_string s)).

(** The number of lines of a text made of whole lines. *)
Definition lines_of_text (text : string) : nat :=
  length (split "010"%char text) - 1.

(** The mapping whose destination is the empty range at a line and column. *)
Definition at_line (line column : nat) : Mapping :=
  mkMapping None
    (Some (mkRange (mkLocation line column) (mkLocation line column))).

(** ** Passes over the tree *)




(** A pass that deletes the nodes that satisfy [unwanted]: it calls
    [replaceWith([])] on them and returns nothing. *)
Definition delete_if (unwanted : AstNode → bool) (s : unit) (node : AstNode)
  : Visited unit :=
  mkVisited node (if unwanted node then Some (Many []) else None) None s.

(** The tree without the nodes that satisfy [unwanted], at any depth. *)
Fixpoint prune (unwanted : AstNode → bool) (node : AstNode) : list AstNode :=
  if unwanted node then []
  else match node with
       | Rule selector nodes mappings =>
         [Rule selector (flat_map (prune unwanted) nodes) mappings]
       | _ => [node]
       end.

Definition prune_all (unwanted : AstNode → bool) (ast : list AstNode)
  : list AstNode :=
  flat_map (prune unwanted) ast.

(** A pass that edits every node in place, by [edit], and returns
    nothing. *)
Definition edit_with (edit : AstNode → AstNode) (s : unit) (node : AstNode)
  : Visited unit :=
  mkVisited (edit node) None None s.

(** [node] with [nodes] for its child list, where it is a rule. *)
Definition set_children (node : AstNode) (nodes : list AstNode) : AstNode :=
  match node with
  | Rule selector _ mappings => Rule selector nodes mappings
  | _ => node
  end.

(** The tree with every node edited by [edit], the children of a rule after
    the rule. *)
Fixpoint rewrite_with (edit : AstNode → AstNode) (node : AstNode) : AstNode :=
  match node with
  | Rule _ nodes _ => set_children (edit node) (map (rewrite_with edit) nodes)
  | _ => edit node
  end.

(** The pass that marks every declaration as important. *)
Definition make_important (node : AstNode) : AstNode :=
  match node with
  | Declaration property value _ mappings =>
    Declaration property value true mappings
  | _ => node
  end.

(** ** What the printer looks at *)

(** The node without the mappings, its own and those of the nodes below. *)
Fixpoint unmapped (node : AstNode) : AstNode :=
  match node with
  | Rule selector nodes _ => Rule selector (map unmapped nodes) []
  | Declaration property value important _ =>
    Declaration property value important []
  | Comment value _ => Comment value []
  end.

(** A list of mappings after at most one [push]. *)
Definition pushed_on (mappings mappings' : list Mapping) : Prop :=
  mappings' = mappings ∨ ∃ m, mappings' = mappings ++ [m].

(** [node'] is [node] after at most one [push] on the mappings of each node
    of the tree, and no other change. *)
Inductive grown : AstNode → AstNode → Prop :=
| grown_rule selector nodes nodes' mappings mappings' :
    pushed_on mappings mappings' →
    Forall2 grown nodes nodes' →
    grown (Rule selector nodes mappings) (Rule selector nodes' mappings')
| grown_declaration property value important mappings mappings' :
    pushed_on mappings mappings' →
    grown (Declaration property value important mappings)
      (Declaration property value important mappings')
| grown_comment value mappings mappings' :
    pushed_on mappings mappings' →
    grown (Comment value mappings) (Comment value mappings').

(** The printer state without the cursor. *)
Definition untracked (p : Printer) : Printer :=
  mkPrinter (atRoots p) (seenAtProperties p) None.

(** No selector and no property name of the tree has a newline in it. *)
Fixpoint single_line_names (node : AstNode) : bool :=
  match node with
  | Rule selector nodes _ =>
    bool_decide (newlines selector = 0) && forallb single_line_names nodes
  | Declaration property _ _ _ => bool_decide (newlines property = 0)
  | Comment _ _ => true
  end.

(** No rule of the tree has the selector ['@at-root']. *)
Fixpoint at_root_free (node : AstNode) : bool :=
  match node with
  | Rule selector nodes _ =>
    negb (bool_decide (selector = "@at-root")) && forallb at_root_free nodes
  | _ => true
  end.

(** No [@at-root] rule of the tree is below another one. *)
Fixpoint hoists_once (node : AstNode) : bool :=
  match node with
  | Rule selector nodes _ =>
    if bool_decide (selector = "@at-root") then forallb at_root_free nodes
    else forallb hoists_once nodes
  | _ => true
  end.

(** Two printer states that differ in nothing but the mappings of the nodes
    in [atRoots]. *)
Definition same_but_mappings (p p' : Printer) : Prop :=
  map unmapped (atRoots p) = map unmapped (atRoots p')
  ∧ seenAtProperties p = seenAtProperties p'
  ∧ location p = location p'.

(** An [@at-root] rule inside a rule, with a rule among its children, and a
    declaration after it. *)
Definition hoisted_once : list AstNode :=
  [ rule ".a" [ decl "color" "red";
                rule "@at-root" [ rule ".b" [ decl "color" "blue" ] ] ];
    decl "top" "0" ].

(** The text ends with a newline. *)
Definition ends_with_newline (text : string) : Prop :=
  ∃ start, text = start +:+ newline.

(** The text is empty or ends with a newline. *)
Definition whole_lines (text : string) : Prop :=
  text = "" ∨ ends_with_newline text.

(** ** The walker on the store of objects

    The values above stand for trees.  [walk] itself works on objects: the
    array it loops over, the node objects in it and the child arrays they
    point to are shared with the visitor and with every other holder of a
    reference, and [replaceWith] may put an object that is already somewhere
    in the tree at a second place.  Here the objects are kept in a store and
    named by references, so that an object reached twice is one object.  The
    visitor is any function that may change the store, call [replaceWith]
    any number of times, return a directive or nothing, or throw. *)

Module Objects.

(** The identity of a node object and of an array object. *)
Definition NodeRef : Type := nat.
Definition ArrayRef : Type := nat.

(** A node object: the fields of [Rule], [Declaration] and [Comment]; the
    field [nodes] of a rule holds a reference to an array. *)
Inductive Object : Type :=
| RuleObject (selector : string) (nodes : ArrayRef) (mappings : list Mapping)
| DeclarationObject (property : string) (value : option string)
    (important : bool) (mappings : list Mapping)
| CommentObject (value : string) (mappings : list Mapping).

(** The store: the node objects and the arrays of nodes. *)
Record Store : Type := mkStore {
  objects : gmap NodeRef Object;
  arrays : gmap ArrayRef (list NodeRef)
}.

Definition empty : Store := mkStore ∅ ∅.

(** [node.kind === 'rule'], and then [node.nodes]. *)
Definition child_array (o : Object) : option ArrayRef :=
  match o with
  | RuleObject _ nodes _ => Some nodes
  | _ => None
  end.

(** [node.kind === 'declaration'] for the object behind a reference. *)
Definition is_declaration (h : Store) (node : NodeRef) : bool :=
  match objects h !! node with
  | Some (DeclarationObject _ _ _ _) => true
  | _ => false
  end.

(** A new object, and a new array. *)
Definition allocate (o : Object) (h : Store) : NodeRef * Store :=
  let node := fresh (dom (objects h)) in
  (node, mkStore (<[node := o]> (objects h)) (arrays h)).

Definition allocate_array (elements : list NodeRef) (h : Store)
  : ArrayRef * Store :=
  let array := fresh (dom (arrays h)) in
  (array, mkStore (objects h) (<[array := elements]> (arrays h))).

(** The objects that evaluating a tree of calls of [rule], [decl] and
    [comment] creates: the arguments first, from left to right, then the
    object itself. *)
Fixpoint plant (node : AstNode) (h : Store) : NodeRef * Store :=
  match node with
  | Rule selector nodes mappings =>
    let '(children, h) :=
      (fix all (nodes : list AstNode) (h : Store) : list NodeRef * Store :=
         match nodes with
         | [] => ([], h)
         | child :: nodes =>
           let '(c, h) := plant child h in
           let '(cs, h) := all nodes h in
           (c :: cs, h)
         end) nodes h in
    let '(array, h) := allocate_array children h in
    allocate (RuleObject selector array mappings) h
  | Declaration property value important mappings =>
    allocate (DeclarationObject property value important mappings) h
  | Comment value mappings => allocate (CommentObject value mappings) h
  end.

Definition plant_list
  : list AstNode → Store → list NodeRef * Store :=
  fix all (nodes : list AstNode) (h : Store) : list NodeRef * Store :=
    match nodes with
    | [] => ([], h)
    | child :: nodes =>
      let '(c, h) := plant child h in
      let '(cs, h) := all nodes h in
      (c :: cs, h)
    end.

(** The array of a forest, in the store that holds nothing else. *)
Definition plant_all (ast : list AstNode) : ArrayRef * Store :=
  let '(nodes, h) := plant_list ast empty in
  allocate_array nodes h.

Definition array_of (ast : list AstNode) : ArrayRef := (plant_all ast).1.
Definition store_of (ast : list AstNode) : Store := (plant_all ast).2.

(** The tree behind a reference, read to a depth of [fuel] (a store may hold
    a rule that is its own descendant). *)
Fixpoint tree_at (fuel : nat) (h : Store) (node : NodeRef) : option AstNode :=
  match fuel with
  | 0 => None
  | S fuel =>
    match objects h !! node with
    | Some (RuleObject selector nodes mappings) =>
      elements ← arrays h !! nodes;
      children ← mapM (tree_at fuel h) elements;
      Some (Rule selector children mappings)
    | Some (DeclarationObject property value important mappings) =>
      Some (Declaration property value important mappings)
    | Some (CommentObject value mappings) => Some (Comment value mappings)
    | None => None
    end
  end.

Definition forest_at (fuel : nat) (h : Store) (ast : ArrayRef)
  : option (list AstNode) :=
  elements ← arrays h !! ast;
  mapM (tree_at fuel h) elements.

(** The references of a tree of objects: a node that is not a rule, or a
    rule, its array and the trees of the elements of that array. *)
Inductive Shape : Type :=
| Leaf (node : NodeRef)
| Branch (node : NodeRef) (nodes : ArrayRef) (children : list Shape).

(** The references of the tree behind a reference, read to a depth of
    [fuel]. *)
Fixpoint shape_at (fuel : nat) (h : Store) (node : NodeRef) : option Shape :=
  match fuel with
  | 0 => None
  | S fuel =>
    match objects h !! node with
    | Some (RuleObject _ nodes _) =>
      elements ← arrays h !! nodes;
      children ← mapM (shape_at fuel h) elements;
      Some (Branch node nodes children)
    | Some _ => Some (Leaf node)
    | None => None
    end
  end.

Definition shapes_at (fuel : nat) (h : Store) (ast : ArrayRef)
  : list Shape :=
  default [] (elements ← arrays h !! ast; mapM (shape_at fuel h) elements).

(** The argument of [replaceWith]: a node, or an array of nodes, which is
    spread when the call is made. *)
Inductive NewNode : Type :=
| One (newNode : NodeRef)
| Many (newNodes : list NodeRef).

(** [Array.isArray(newNode) ? newNode : [newNode]] *)
Definition spread (newNode : NewNode) : list NodeRef :=
  match newNode with
  | One n => [n]
  | Many ns => ns
  end.

(** [l.splice(start, deleteCount, ...items)]: a negative [start] counts from
    the end, a [start] beyond either end is moved to that end, and no more
    is deleted than there is. *)
Definition splice {A} (l : list A) (start : Z) (deleteCount : nat)
    (items : list A) : list A :=
  let len := Z.of_nat (length l) in
  let actualStart :=
    Z.to_nat (if (start <? 0)%Z then Z.max (len + start) 0
              else Z.min start len) in
  take actualStart l ++ items ++ drop (actualStart + deleteCount) l.

(** [ast.splice(i, 1, ...items)] on the array object [ast]. *)
Definition splice_array (h : Store) (ast : ArrayRef) (i : Z)
    (items : list NodeRef) : Store :=
  mkStore (objects h) (alter (λ l, splice l i 1 items) ast (arrays h)).

(** [ast[i]]: [undefined] ([None]) outside the array. *)
Definition element (elements : list NodeRef) (i : Z) : option NodeRef :=
  if (i <? 0)%Z then None else elements !! Z.to_nat i.

(** One call [visit(node, { replaceWith })], as the walker sees it.  The
    visitor works on the store and then either returns, throws, or calls
    [replaceWith] and goes on in the store the call has left:
    - [Returns h s status]: the store and the visitor's own state when it
      returns, and the value returned ([None] for [undefined]);
    - [Throws h s]: the same for an exception;
    - [ReplaceWith h newNode next]: the store when [replaceWith(newNode)]
      is called, and the rest of the visit, given the store after the
      call.
    The function [replaceWith] is called during the visit it was made for:
    a visitor that keeps it and calls it after that visit has returned is
    not covered. *)
Inductive Call (St : Type) : Type :=
| Returns (h : Store) (s : St) (status : option WalkAction)
| Throws (h : Store) (s : St)
| ReplaceWith (h : Store) (newNode : NewNode) (next : Store → Call St).
Arguments Returns {St}.
Arguments Throws {St}.
Arguments ReplaceWith {St}.

(** The visit in the loop of [walk] over the array [ast] at index [i]: each
    call of [replaceWith] splices [ast] at the index as it is then, and
    decrements the index.  The result is the store, the index and the
    visitor's state when the visitor returns or throws, and the value
    returned ([None] for an exception). *)
Fixpoint run {St} (ast : ArrayRef) (i : Z) (c : Call St)
  : Store * Z * St * option (option WalkAction) :=
  match c with
  | Returns h s status => (h, i, s, Some status)
  | Throws h s => (h, i, s, None)
  | ReplaceWith h newNode next =>
    run ast (i - 1) (next (splice_array h ast i (spread newNode)))
  end.

(** How a call of [walk] ends: it returns, or an exception leaves it. *)
Inductive Completion : Type := Normal | Throw.

(** The store and the visitor's state when a call of [walk] ends. *)
Record Walked (St : Type) : Type := mkWalked {
  store_after : Store;
  state_after : St;
  completion : Completion
}.
Arguments mkWalked {St}.
Arguments store_after {St}.
Arguments state_after {St}.
Arguments completion {St}.

Section Walker.
Context {St : Type}.
Variable visit : St → Store → option NodeRef → Call St.

(** The loop of [walk(ast, visit)] from index [i] on.  The array and the
    objects are read from the store at the moment the code reads them:
    [ast.length] and [ast[i]] at the head of each iteration, [node.kind] and
    [node.nodes] after the visit.  The index may have become negative (two
    calls of [replaceWith] in one visit at index 0): [i < ast.length] holds
    then, [ast[i]] is [undefined] and the visitor is called on it; reading
    [kind] of [undefined] throws.  A reference without an object or array
    behind it, which no JavaScript program can hold, is read as
    [undefined].  [None] is for fuel that ran out. *)
Fixpoint walk_from (fuel : nat) (h : Store) (ast : ArrayRef) (i : Z) (s : St)
  : option (Walked St) :=
  match fuel with
  | 0 => None
  | S fuel =>
    match arrays h !! ast with
    | None => Some (mkWalked h s Throw)
    | Some elements =>
      if bool_decide (i < Z.of_nat (length elements))%Z then
        let node := element elements i in
        let '(h, i, s, result) := run ast i (visit s h node) in
        match result with
        | None => Some (mkWalked h s Throw)
        | Some status =>
          match default Continue status with
          | Stop => (* [return] *)
            Some (mkWalked h s Normal)
          | Skip => (* [continue] *)
            walk_from fuel h ast (i + 1) s
          | Continue =>
            match node ≫= (objects h !!.) with
            | None => Some (mkWalked h s Throw)
            | Some (RuleObject _ nodes _) => (* [walk(node.nodes, visit)] *)
              inner ← walk_from fuel h nodes 0 s;
              match completion inner with
              | Throw => Some inner
              | Normal =>
                walk_from fuel (store_after inner) ast (i + 1)
                  (state_after inner)
              end
            | Some _ => walk_from fuel h ast (i + 1) s
            end
          end
        end
      else Some (mkWalked h s Normal)
    end
  end.

Definition walk (fuel : nat) (h : Store) (ast : ArrayRef) (s : St)
  : option (Walked St) :=
  walk_from fuel h ast 0 s.
End Walker.

(** *** The calls of the visitor *)

(** A visitor that does what [visit] does and also keeps a list of the
    nodes it has been called on, in call order. *)
Fixpoint recorded {St} (log : list (option NodeRef)) (c : Call St)
  : Call (St * list (option NodeRef)) :=
  match c with
  | Returns h s status => Returns h (s, log) status
  | Throws h s => Throws h (s, log)
  | ReplaceWith h newNode next =>
    ReplaceWith h newNode (λ h', recorded log (next h'))
  end.

Definition recording {St} (visit : St → Store → option NodeRef → Call St)
  : St * list (option NodeRef) → Store → option NodeRef
    → Call (St * list (option NodeRef)) :=
  λ sl h node, recorded (sl.2 ++ [node]) (visit sl.1 h node).

(** *** Trees in the store *)

Definition root (t : Shape) : NodeRef :=
  match t with
  | Leaf node => node
  | Branch node _ _ => node
  end.

Definition children (t : Shape) : list Shape :=
  match t with
  | Leaf _ => []
  | Branch _ _ children => children
  end.

Fixpoint Shape_forall_ind (P : Shape → Prop)
    (HLeaf : ∀ node, P (Leaf node))
    (HBranch : ∀ node nodes children,
        Forall P children → P (Branch node nodes children))
    (t : Shape) : P t :=
  match t with
  | Leaf node => HLeaf node
  | Branch node nodes children =>
    HBranch node nodes children
      ((fix all (l : list Shape) : Forall P l :=
          match l with
          | [] => @List.Forall_nil _ P
          | t :: l =>
            @List.Forall_cons _ P t l (Shape_forall_ind P HLeaf HBranch t)
              (all l)
          end) children)
  end.

(** The nodes of a tree in depth-first pre-order, their number, and the
    arrays of the tree. *)
Fixpoint nodes_of (t : Shape) : list NodeRef :=
  root t :: match t with
            | Leaf _ => []
            | Branch _ _ children => flat_map nodes_of children
            end.

Definition nodes_of_all (forest : list Shape) : list NodeRef :=
  flat_map nodes_of forest.

Fixpoint count (t : Shape) : nat :=
  S match t with
    | Leaf _ => 0
    | Branch _ _ children => list_sum (map count children)
    end.

Definition count_all (forest : list Shape) : nat :=
  list_sum (map count forest).

Fixpoint arrays_of (t : Shape) : list ArrayRef :=
  match t with
  | Leaf _ => []
  | Branch _ nodes children => nodes :: flat_map arrays_of children
  end.

Definition arrays_of_all (forest : list Shape) : list ArrayRef :=
  flat_map arrays_of forest.

(** The tree is in the store: behind each leaf is an object that is not a
    rule, behind each branch a rule whose [nodes] is the array of the
    branch, and that array holds the roots of the children. *)
Fixpoint in_store (h : Store) (t : Shape) : bool :=
  match t with
  | Leaf node => bool_decide (child_array <$> objects h !! node = Some None)
  | Branch node nodes children =>
    bool_decide (child_array <$> objects h !! node = Some (Some nodes))
    && bool_decide (arrays h !! nodes = Some (root <$> children))
    && forallb (in_store h) children
  end.

(** The array [ast] holds the forest. *)
Definition holds (h : Store) (ast : ArrayRef) (forest : list Shape) : bool :=
  bool_decide (arrays h !! ast = Some (root <$> forest))
  && forallb (in_store h) forest.


(** The two stores have the same arrays, and the same rules with the same
    child arrays: they differ in the other fields of the objects only. *)
Definition same_structure (h h' : Store) : bool :=
  bool_decide (arrays h' = arrays h)
  && bool_decide (child_array <$> objects h' = child_array <$> objects h).

(** *** The walk of a tree that keeps its structure *)

(** What a traversal of a forest has come to: the store, the visitor's
    state, whether the visitor has said [Stop] at the top level of the
    forest, and the nodes the visitor was called on. *)
Record Traversed (St : Type) : Type := mkTraversed {
  store_then : Store;
  state_then : St;
  stopped : bool;
  route : list NodeRef
}.
Arguments mkTraversed {St}.
Arguments store_then {St}.
Arguments state_then {St}.
Arguments stopped {St}.
Arguments route {St}.

Section Traversal.
Context {St : Type}.
Variable visit : St → Store → option NodeRef → Call St.

(** The traversal of a tree by recursion on the tree: the visitor is called
    on the root; after [Continue] or nothing the children of a rule are
    traversed from first to last, until one of their visits says [Stop].
    It is defined for as long as the visitor returns without calling
    [replaceWith] and leaves the structure of the store as it is. *)
Fixpoint traverse (h : Store) (s : St) (t : Shape) : option (Traversed St) :=
  match visit s h (Some (root t)) with
  | Returns h1 s1 status =>
    if same_structure h h1 then
      match default Continue status with
      | Stop => Some (mkTraversed h1 s1 true [root t])
      | Skip => Some (mkTraversed h1 s1 false [root t])
      | Continue =>
        match t with
        | Leaf _ => Some (mkTraversed h1 s1 false [root t])
        | Branch _ _ children =>
          below ←
            (fix all (ts : list Shape) (h : Store) (s : St)
               : option (Traversed St) :=
               match ts with
               | [] => Some (mkTraversed h s false [])
               | t :: ts =>
                 first ← traverse h s t;
                 if stopped first then Some first
                 else
                   rest ← all ts (store_then first) (state_then first);
                   Some (mkTraversed (store_then rest) (state_then rest)
                           (stopped rest) (route first ++ route rest))
               end) children h1 s1;
          Some (mkTraversed (store_then below) (state_then below) false
                  (root t :: route below))
        end
      end
    else None
  | _ => None
  end.

Definition traverse_all
  : list Shape → Store → St → option (Traversed St) :=
  fix all (ts : list Shape) (h : Store) (s : St) : option (Traversed St) :=
    match ts with
    | [] => Some (mkTraversed h s false [])
    | t :: ts =>
      first ← traverse h s t;
      if stopped first then Some first
      else
        rest ← all ts (store_then first) (state_then first);
        Some (mkTraversed (store_then rest) (state_then rest)
                (stopped rest) (route first ++ route rest))
    end.
End Traversal.

(** *** Visitors *)

(** The visitor returns without calling [replaceWith] (and does not
    throw). *)
Definition never_replaces {St}
    (visit : St → Store → option NodeRef → Call St) : Prop :=
  ∀ s h node, ∃ h' s' status, visit s h (Some node) = Returns h' s' status.

(** What the visitor returns is [Continue] or nothing. *)
Definition always_continues {St}
    (visit : St → Store → option NodeRef → Call St) : Prop :=
  ∀ s h node h' s' status,
    visit s h (Some node) = Returns h' s' status →
    default Continue status = Continue.

(** The visitor may edit any object, but leaves every child list as it is:
    no array is changed, no rule is given another array, and no object is
    made a rule or stops being one. *)
Definition keeps_children {St}
    (visit : St → Store → option NodeRef → Call St) : Prop :=
  ∀ s h node h' s' status,
    visit s h (Some node) = Returns h' s' status →
    same_structure h h' = true.

(** The store and the visitor's state after calls of the visitor on the
    nodes of a list, one after the other. *)
Definition visits_in_turn {St}
    (visit : St → Store → option NodeRef → Call St)
    (nodes : list NodeRef) (h : Store) (s : St) : Store * St :=
  foldl (λ hs node,
           match visit hs.2 hs.1 (Some node) with
           | Returns h' s' _ => (h', s')
           | _ => hs
           end) (h, s) nodes.

(** A visitor that pushes the node [extra] on the child list of every rule
    it is handed, [node.nodes.push(extra)], and returns [Continue]. *)
Definition push_child (extra : NodeRef) (s : unit) (h : Store)
    (node : option NodeRef) : Call unit :=
  match node with
  | None => Throws h s
  | Some n =>
    match objects h !! n with
    | Some (RuleObject _ nodes _) =>
      Returns (mkStore (objects h) (alter (λ l, l ++ [extra]) nodes (arrays h)))
        s (Some Continue)
    | _ => Returns h s (Some Continue)
    end
  end.

(** A visitor that counts its calls and returns [Continue]. *)
Definition count_calls (calls : nat) (h : Store) (node : option NodeRef)
  : Call nat :=
  Returns h (calls + 1) (Some Continue).

(** [wanted(node)] for the object behind a reference. *)
Definition satisfies (wanted : Object → bool) (h : Store) (node : NodeRef)
  : bool :=
  match objects h !! node with
  | Some o => wanted o
  | None => false
  end.


Definition wants_declaration (o : Object) : bool :=
  match o with
  | DeclarationObject _ _ _ _ => true
  | _ => false
  end.




(** A visitor that replaces every rule by its children,
    [replaceWith(node.nodes)], appends ['!'] to the value of every
    declaration, [node.value += '!'], and returns nothing. *)
Definition unwrap_and_mark (s : unit) (h : Store) (node : option NodeRef)
  : Call unit :=
  match node with
  | None => Throws h s
  | Some n =>
    match objects h !! n with
    | Some (RuleObject _ nodes _) =>
      ReplaceWith h (Many (default [] (arrays h !! nodes)))
        (λ h', Returns h' s None)
    | Some (DeclarationObject property value important mappings) =>
      Returns
        (mkStore
           (<[n := DeclarationObject property ((λ v, v +:+ "!") <$> value)
                     important mappings]> (objects h))
           (arrays h))
        s None
    | _ => Returns h s None
    end
  end.

(** A visitor that calls [replaceWith] twice in one visit: the first time
    it is handed a declaration it calls [replaceWith(first)] and then
    [replaceWith(second)], and it does nothing on any other visit.  As for
    [replace_once], the test is [!seen && node.kind === 'declaration']. *)
Definition replace_twice (first second : NodeRef) (seen : bool) (h : Store)
    (node : option NodeRef) : Call bool :=
  match node with
  | None => if seen then Returns h seen None else Throws h seen
  | Some n =>
    if negb seen && is_declaration h n
    then ReplaceWith h (One first)
           (λ h1, ReplaceWith h1 (One second) (λ h2, Returns h2 true None))
    else Returns h seen None
  end.

(** A visitor that counts its calls and returns [Stop] from the third one,
    nothing from the others. *)
Definition stop_on_third (calls : nat) (h : Store) (node : option NodeRef)
  : Call nat :=
  Returns h (calls + 1) (if bool_decide (calls = 2) then Some Stop else None).

End Objects.



Definition two_new_declarations : list AstNode :=
  [ decl "margin" "0"; decl "padding" "0" ].

(** Three nodes: a rule in a rule, and a comment. *)
Definition three_nodes : list AstNode :=
  [ rule ".a" [ rule ".b" [] ]; comment " x " ].

(** A comment and two declarations; and two declarations alone. *)
Definition comment_and_declarations : list AstNode :=
  [ comment " c "; decl "color" "red"; decl "top" "0" ].

Definition two_declarations : list AstNode :=
  [ decl "color" "red"; decl "top" "0" ].

(** A declaration in a rule in a rule, and a declaration behind them. *)
Definition nested_rules : list AstNode :=
  [ rule ".a" [ rule ".b" [ decl "color" "red" ] ]; decl "top" "0" ].

(** * Properties *)

(** ** The node model *)

Lemma preorder_children node :
  preorder node = node :: preorder_all (children node).
Proof. by destruct node. Qed.

Lemma count_nodes_children node :
  count_nodes node = S (count_all (children node)).
Proof. by destruct node. Qed.


Lemma count_all_cons node ast :
  count_all (node :: ast) = count_nodes node + count_all ast.
Proof. done. Qed.

(** ** The walker *)

Ltac unfold_visit :=
  unfold iteration, after_visit, next_index in *;
  unfold called_replaceWith in *.

Section WalkerFacts.
Context {St : Type}.
Variable visit : St → AstNode → Visited St.

(** More fuel never changes a result. *)
Lemma walk_from_mono fuel fuel' ast i s r :
  fuel ≤ fuel' →
  walk_from visit fuel ast i s = Some r →
  walk_from visit fuel' ast i s = Some r.
Proof.
  revert fuel' ast i s r.
  induction fuel as [|fuel IH]; intros fuel' ast i s r Hle Hrun; [done|].
  destruct fuel' as [|fuel']; [lia|].
  assert (fuel ≤ fuel') as Hle' by lia.
  simpl in *. destruct (ast !! i) as [node|]; [|done].
  destruct (default Continue (returned (visit s node))); [|..|done].
  - destruct (edited (visit s node)).
    + destruct (walk_from visit fuel nodes 0 _) as [inner|] eqn:Hinner;
        [|done].
      rewrite (IH _ _ _ _ _ Hle' Hinner). simpl in *.
      destruct (walk_from visit fuel _ _ (state_after inner)) as [rest|]
        eqn:Hrest; [|done].
      by rewrite (IH _ _ _ _ _ Hle' Hrest).
    + destruct (walk_from visit fuel _ _ _) as [rest|] eqn:Hrest; [|done].
      by rewrite (IH _ _ _ _ _ Hle' Hrest).
    + destruct (walk_from visit fuel _ _ _) as [rest|] eqn:Hrest; [|done].
      by rewrite (IH _ _ _ _ _ Hle' Hrest).
  - destruct (walk_from visit fuel _ _ _) as [rest|] eqn:Hrest; [|done].
    by rewrite (IH _ _ _ _ _ Hle' Hrest).
Qed.
End WalkerFacts.

(** Array facts for the index of the loop. *)
Lemma insert_here {A} (done rest : list A) (x y : A) :
  <[length done := y]> (done ++ x :: rest) = done ++ y :: rest.
Proof.
  replace (length done) with (length done + 0) by lia.
  by rewrite insert_app_r.
Qed.

Lemma splice_here {A} (done rest : list A) (x : A) (items : list A) :
  splice (done ++ x :: rest) (length done) 1 items = done ++ items ++ rest.
Proof.
  unfold splice. rewrite take_app_length. f_equal. f_equal.
  rewrite drop_app_ge by lia.
  by replace (length done + 1 - length done) with 1 by lia.
Qed.

Lemma lookup_here {A} (done rest : list A) :
  (done ++ rest) !! length done = rest !! 0.
Proof.
  rewrite lookup_app_r by lia. by rewrite Nat.sub_diag.
Qed.

Section WalkerIterations.
Context {St : Type}.
Variable visit : St → AstNode → Visited St.


End WalkerIterations.

(** ** The walker: the properties of the design document *)

(** C1. The forest [ten_nodes] has ten nodes and [stop_on_third] returns
    [Stop] from its third call, which is on a declaration inside the first
    rule.  [Stop] ends the activation that walks that rule's children and no
    more: the walk of the top level goes on with the second rule, and the
    visitor is called nine times, not three.  On ten nodes at the top level
    the third call is in the outermost activation and the visitor is called
    three times. *)
Theorem stop_leaves_the_inner_activation_only :
  count_all ten_nodes = 10
  ∧ (∃ r, (∀ fuel, 6 ≤ fuel → walk stop_on_third fuel ten_nodes 0 = Some r)
          ∧ visits r =
              [ rule ".a" [decl "color" "red"; decl "color" "green";
                           decl "color" "blue"];
                decl "color" "red"; decl "color" "green";
                rule ".b" [decl "margin" "0"; decl "padding" "0"];
                decl "margin" "0"; decl "padding" "0";
                decl "top" "0"; comment " x "; decl "left" "0" ]
          ∧ length (visits r) = 9
          ∧ state_after r = 9)
  ∧ count_all ten_flat = 10
  ∧ (∃ r, (∀ fuel, 3 ≤ fuel → walk stop_on_third fuel ten_flat 0 = Some r)
          ∧ length (visits r) = 3).
Proof.
  split; [reflexivity|]. split; [|split; [reflexivity|]].
  - destruct (walk stop_on_third 6 ten_nodes 0) as [r|] eqn:Hrun;
      [|by vm_compute in Hrun].
    exists r. split.
    + intros fuel Hfuel. by apply (walk_from_mono _ 6).
    + vm_compute in Hrun. by simplify_eq.
  - destruct (walk stop_on_third 3 ten_flat 0) as [r|] eqn:Hrun;
      [|by vm_compute in Hrun].
    exists r. split.
    + intros fuel Hfuel. by apply (walk_from_mono _ 3).
    + vm_compute in Hrun. by simplify_eq.
Qed.


(** ** The printer *)

Lemma append_empty_r s : s +:+ "" = s.
Proof.
  induction s as [|c s IH]; [done|].
  change (String c (s +:+ "") = String c s). by rewrite IH.
Qed.

Lemma length_append s1 s2 :
  String.length (s1 +:+ s2) = String.length s1 + String.length s2.
Proof.
  induction s1 as [|c s1 IH]; [done|].
  change (S (String.length (s1 +:+ s2))
          = S (String.length s1 + String.length s2)).
  by rewrite IH.
Qed.

Lemma length_repeat_string s count :
  String.length (repeat_string s count) = count * String.length s.
Proof.
  induction count as [|count IH]; [done|].
  change (String.length (s +:+ repeat_string s count)
          = String.length s + count * String.length s).
  by rewrite length_append, IH.
Qed.

(** The column of a destination is two per level of nesting. *)
Lemma indent_width depth :
  String.length (repeat_string "  " depth) = 2 * depth.
Proof. rewrite length_repeat_string. simpl. lia. Qed.

(** [s.split(c)] has one piece more than [s] has occurrences of [c]. *)
Lemma length_split separator s :
  length (split separator s)
  = S (length (filter (λ c, c = separator) (list_ascii_of_string s))).
Proof.
  induction s as [|c s IH]; [done|]. cbn [split list_ascii_of_string].
  rewrite filter_cons. case_bool_decide as Hc.
  - rewrite decide_True by done. simpl. by rewrite IH.
  - rewrite decide_False by done.
    destruct (split separator s); simpl in *; lia.
Qed.

Lemma stringifyAll_cons depth child nodes p :
  stringifyAll depth (child :: nodes) p =
  let '(css, child', p) := stringify depth child p in
  let '(css', nodes', p) := stringifyAll depth nodes p in
  (css +:+ css', child' :: nodes', p).
Proof. done. Qed.

(** The branches of [stringify] on a rule, with its loop over the children
    named. *)
Lemma stringify_rule depth selector nodes mappings p :
  stringify depth (Rule selector nodes mappings) p =
  let indent := repeat_string "  " depth in
  if bool_decide (selector = "@at-root") then
    ("", Rule selector nodes mappings,
     mkPrinter (atRoots p ++ nodes) (seenAtProperties p) (location p))
  else if bool_decide (selector = "@tailwind utilities") then
    let '(css, nodes', p') := stringifyAll depth nodes p in
    (css, Rule selector nodes' mappings, p')
  else if at_rule selector && bool_decide (length nodes = 0) then
    (indent +:+ selector +:+ ";" +:+ newline,
     Rule selector nodes (push_destination mappings indent p),
     advance 1 p)
  else if at_rule selector && String.prefix "@property " selector
          && bool_decide (depth = 0)
          && bool_decide (selector ∈ seenAtProperties p) then
    ("", Rule selector nodes mappings, p)
  else
    let p0 :=
      if at_rule selector && String.prefix "@property " selector
         && bool_decide (depth = 0)
      then mkPrinter (atRoots p) ({[selector]} ∪ seenAtProperties p)
             (location p)
      else p in
    let '(inner, nodes', p2) := stringifyAll (depth + 1) nodes (advance 1 p0) in
    (((indent +:+ selector +:+ " {" +:+ newline) +:+ inner)
       +:+ indent +:+ "}" +:+ newline,
     Rule selector nodes' (push_destination mappings indent p0),
     advance 1 p2).
Proof. done. Qed.

Lemma push_destination_untracked mappings indent p :
  location p = None → push_destination mappings indent p = mappings.
Proof. unfold push_destination. by intros ->. Qed.

Lemma advance_untracked lines p : location p = None → advance lines p = p.
Proof. unfold advance. by intros ->. Qed.

Lemma seenAtProperties_advance lines p :
  seenAtProperties (advance lines p) = seenAtProperties p.
Proof. unfold advance. by destruct (location p). Qed.

Lemma atRoots_advance lines p : atRoots (advance lines p) = atRoots p.
Proof. unfold advance. by destruct (location p). Qed.

(** With a cursor, a comment at depth [depth] is given the destination at
    the cursor's line and column [2 * depth], and the cursor moves down by
    one line and one more for each newline in the comment's value. *)
Lemma comment_destination depth value mappings p loc :
  location p = Some loc →
  stringify depth (Comment value mappings) p
  = (repeat_string "  " depth +:+ "/*" +:+ value +:+ "*/" +:+ newline,
     Comment value (mappings ++ [at_line (line loc) (2 * depth)]),
     advance (1 + newlines value) p).
Proof.
  intros Hloc. simpl. unfold push_destination, destination_at, lines_of_value.
  rewrite Hloc, indent_width, length_split. unfold newlines, at_line.
  by replace (1 + S (length (filter (λ c, c = "010"%char)
                               (list_ascii_of_string value))) - 1)
    with (1 + length (filter (λ c, c = "010"%char)
                        (list_ascii_of_string value))) by lia.
Qed.

(** Without a cursor nothing is pushed on any node. *)
Lemma stringify_untracked node :
  ∀ depth p, location p = None →
    (stringify depth node p).1.2 = node
    ∧ location (stringify depth node p).2 = None.
Proof.
  induction node as [selector nodes mappings IH|property value important mappings|
                     value mappings] using AstNode_forall_ind;
    intros depth p Hloc.
  - assert (∀ depth p, location p = None →
              (stringifyAll depth nodes p).1.2 = nodes
              ∧ location (stringifyAll depth nodes p).2 = None) as Hall.
    { clear depth p Hloc.
      induction IH as [|child nodes Hchild _ IHnodes]; intros depth p Hloc;
        [done|].
      rewrite stringifyAll_cons.
      destruct (Hchild depth p Hloc) as [Hc Hl].
      destruct (stringify depth child p) as [[css child'] p1].
      destruct (IHnodes depth p1 Hl) as [Hn Hl'].
      destruct (stringifyAll depth nodes p1) as [[css' nodes'] p2].
      simpl in *. by subst. }
    rewrite stringify_rule. cbv zeta.
    destruct (bool_decide (selector = "@at-root")); [done|].
    destruct (bool_decide (selector = "@tailwind utilities")).
    { destruct (Hall depth p Hloc) as [Hn Hl].
      destruct (stringifyAll depth nodes p) as [[css nodes'] p'].
      simpl in *. by subst. }
    destruct (at_rule selector && bool_decide (length nodes = 0)).
    { simpl. by rewrite push_destination_untracked, advance_untracked. }
    destruct (at_rule selector && String.prefix "@property " selector
              && bool_decide (depth = 0)
              && bool_decide (selector ∈ seenAtProperties p)); [done|].
    match goal with |- context [advance 1 ?q] => set (p0 := q) end.
    assert (location p0 = None) as Hloc0 by (unfold p0; by case_match).
    rewrite (advance_untracked 1 p0 Hloc0).
    destruct (Hall (depth + 1) p0 Hloc0) as [Hn Hl].
    destruct (stringifyAll (depth + 1) nodes p0) as [[inner nodes'] p2].
    simpl in *. subst.
    by rewrite push_destination_untracked, advance_untracked.
  - simpl. repeat case_match; simplify_eq/=;
      rewrite ?push_destination_untracked, ?advance_untracked by done; done.
  - simpl. by rewrite push_destination_untracked, advance_untracked.
Qed.

Lemma stringifyAll_untracked nodes :
  ∀ depth p, location p = None →
    (stringifyAll depth nodes p).1.2 = nodes
    ∧ location (stringifyAll depth nodes p).2 = None.
Proof.
  induction nodes as [|child nodes IH]; intros depth p Hloc; [done|].
  rewrite stringifyAll_cons.
  destruct (stringify_untracked child depth p Hloc) as [Hc Hl].
  destruct (stringify depth child p) as [[css child'] p1].
  destruct (IH depth p1 Hl) as [Hn Hl'].
  destruct (stringifyAll depth nodes p1) as [[css' nodes'] p2].
  simpl in *. by subst.
Qed.

(** Below the top level the set of seen [@property] selectors is neither
    read nor written. *)
Lemma stringify_nested_seen node :
  ∀ depth p, 0 < depth →
    seenAtProperties (stringify depth node p).2 = seenAtProperties p.
Proof.
  induction node as [selector nodes mappings IH|property value important mappings|
                     value mappings] using AstNode_forall_ind;
    intros depth p Hdepth.
  - assert (∀ depth p, 0 < depth →
              seenAtProperties (stringifyAll depth nodes p).2
              = seenAtProperties p) as Hall.
    { clear depth p Hdepth.
      induction IH as [|child nodes Hchild _ IHnodes]; intros depth p Hdepth;
        [done|].
      rewrite stringifyAll_cons.
      pose proof (Hchild depth p Hdepth) as Hc.
      destruct (stringify depth child p) as [[css child'] p1].
      pose proof (IHnodes depth p1 Hdepth) as Hn.
      destruct (stringifyAll depth nodes p1) as [[css' nodes'] p2].
      simpl in *. congruence. }
    rewrite stringify_rule. cbv zeta.
    rewrite (bool_decide_eq_false_2 (depth = 0)) by lia.
    rewrite !andb_false_r. simpl.
    destruct (bool_decide (selector = "@at-root")); [done|].
    destruct (bool_decide (selector = "@tailwind utilities")).
    { pose proof (Hall depth p Hdepth) as Hn.
      by destruct (stringifyAll depth nodes p) as [[css nodes'] p']. }
    destruct (at_rule selector && bool_decide (length nodes = 0)).
    { simpl. apply seenAtProperties_advance. }
    pose proof (Hall (depth + 1) (advance 1 p) ltac:(lia)) as Hn.
    destruct (stringifyAll (depth + 1) nodes (advance 1 p))
      as [[inner nodes'] p2].
    simpl in *. by rewrite seenAtProperties_advance, Hn,
      seenAtProperties_advance.
  - simpl. repeat case_match; simpl; by rewrite ?seenAtProperties_advance.
  - simpl. apply seenAtProperties_advance.
Qed.

Lemma stringifyAll_nested_seen nodes :
  ∀ depth p, 0 < depth →
    seenAtProperties (stringifyAll depth nodes p).2 = seenAtProperties p.
Proof.
  induction nodes as [|child nodes IH]; intros depth p Hdepth; [done|].
  rewrite stringifyAll_cons.
  pose proof (stringify_nested_seen child depth p Hdepth) as Hc.
  destruct (stringify depth child p) as [[css child'] p1].
  pose proof (IH depth p1 Hdepth) as Hn.
  destruct (stringifyAll depth nodes p1) as [[css' nodes'] p2].
  simpl in *. congruence.
Qed.

Lemma prefix_cons_true a s1 s2 :
  String.prefix (String a s1) s2 = true →
  ∃ s2', s2 = String a s2' ∧ String.prefix s1 s2' = true.
Proof.
  destruct s2 as [|b s2]; [done|].
  change (String.prefix (String a s1) (String b s2))
    with (if ascii_dec a b then String.prefix s1 s2 else false).
  destruct (ascii_dec a b) as [<-|]; [|done]. eauto.
Qed.

(** A selector that starts with ['@property '] starts with ['@'] and is
    neither of the two selectors that [stringify] tests for first. *)
Lemma property_selector selector :
  String.prefix "@property " selector = true →
  at_rule selector = true
  ∧ bool_decide (selector = "@at-root") = false
  ∧ bool_decide (selector = "@tailwind utilities") = false.
Proof.
  intros Hprefix.
  apply prefix_cons_true in Hprefix as (s1 & -> & Hprefix).
  apply prefix_cons_true in Hprefix as (s2 & -> & _).
  repeat split; by apply bool_decide_eq_false_2.
Qed.

(** C8. A declaration whose property is ['--tw-sort'], or whose value is
    missing, prints nothing: no text, no mapping, no move of the cursor.
    Any other declaration prints as its indentation, property, [': '],
    value, ['!important'] exactly when [important] is set, [';'] and a
    newline, so that ['color: red'] with [important] prints as
    ['color: red!important;']. *)
Theorem declaration_text depth property value important mappings p :
  let node := Declaration property value important mappings in
  (property = "--tw-sort" ∨ value = None →
     stringify depth node p = ("", node, p))
  ∧ (∀ text, property ≠ "--tw-sort" → value = Some text →
       (stringify depth node p).1.1
       = repeat_string "  " depth +:+ property +:+ ": " +:+ text
           +:+ (if important then "!important" else "") +:+ ";" +:+ newline)
  ∧ css (toCss [Declaration "color" (Some "red") true []] false)
    = "color: red!important;" +:+ newline
  ∧ css (toCss [Declaration "color" (Some "red") false []] false)
    = "color: red;" +:+ newline.
Proof.
  intros node. split; [|split; [|done]].
  - intros [->| ->]; [|done]. by destruct value.
  - intros text Hproperty ->. simpl.
    by rewrite bool_decide_eq_true_2.
Qed.

Lemma declaration_text_witness :
  ("--tw-sort" = "--tw-sort" ∨ Some "1" = None (A := string))
  ∧ stringify 1 (Declaration "--tw-sort" (Some "1") true []) (initial true)
    = ("", Declaration "--tw-sort" (Some "1") true [], initial true)
  ∧ "margin" ≠ "--tw-sort"
  ∧ (stringify 1 (Declaration "margin" (Some "0") true []) (initial true)).1.1
    = "  margin: 0!important;" +:+ newline.
Proof.
  assert ("--tw-sort" = "--tw-sort" ∨ Some "1" = None (A := string)) as H1
    by (left; reflexivity).
  assert ("margin" ≠ "--tw-sort") as H2 by discriminate.
  split; [exact H1|]. split.
  - exact (proj1 (declaration_text 1 "--tw-sort" (Some "1") true []
                    (initial true)) H1).
  - split; [exact H2|].
    exact (proj1 (proj2 (declaration_text 1 "margin" (Some "0") true []
                           (initial true))) "0" H2 eq_refl).
Defined.

Lemma stringifyAll_childless selector mappings copies :
  String.prefix "@property " selector = true →
  ∀ p, (stringifyAll 0 (replicate copies (Rule selector [] mappings)) p).1.1
       = repeat_string (selector +:+ ";" +:+ newline) copies
       ∧ atRoots (stringifyAll 0 (replicate copies (Rule selector [] mappings))
                    p).2 = atRoots p.
Proof.
  intros (Hat & Hroot & Hutilities)%property_selector.
  induction copies as [|copies IH]; intros p; [done|].
  cbn [replicate]. rewrite stringifyAll_cons, stringify_rule. cbv zeta.
  rewrite Hroot, Hutilities, Hat. simpl.
  destruct (IH (advance 1 p)) as [Hcss Hroots].
  destruct (stringifyAll 0 _ (advance 1 p)) as [[css' nodes'] p'].
  simpl in *. by rewrite Hcss, Hroots, atRoots_advance.
Qed.

(** C10. At depth 0 a rule without children whose selector starts with
    ['@property '] prints as its selector and [';'] on a line of its own,
    whatever the set of seen selectors holds: the branch of the at-rules
    without children comes before the check for duplicates.  The selector is
    not added to the set, and every copy of such a rule is printed. *)
Theorem childless_property_rule_is_printed selector mappings p :
  String.prefix "@property " selector = true →
  stringify 0 (Rule selector [] mappings) p
  = (selector +:+ ";" +:+ newline,
     Rule selector [] (push_destination mappings "" p),
     advance 1 p)
  ∧ seenAtProperties (stringify 0 (Rule selector [] mappings) p).2
    = seenAtProperties p
  ∧ ∀ copies track,
      css (toCss (replicate copies (Rule selector [] mappings)) track)
      = repeat_string (selector +:+ ";" +:+ newline) copies.
Proof.
  intros Hprefix.
  destruct (property_selector _ Hprefix) as (Hat & Hroot & Hutilities).
  assert (stringify 0 (Rule selector [] mappings) p
          = (selector +:+ ";" +:+ newline,
             Rule selector [] (push_destination mappings "" p),
             advance 1 p)) as Hprint.
  { rewrite stringify_rule. cbv zeta. by rewrite Hroot, Hutilities, Hat. }
  split; [done|]. split.
  - rewrite Hprint. apply seenAtProperties_advance.
  - intros copies track. unfold toCss.
    destruct (stringifyAll_childless selector mappings copies Hprefix
                (initial track)) as [Hcss Hroots].
    destruct (stringifyAll 0 _ (initial track)) as [[css1 ast'] p1].
    simpl in Hcss, Hroots. rewrite Hroots. simpl.
    by rewrite append_empty_r.
Qed.

Lemma childless_property_rule_is_printed_witness :
  let p := mkPrinter [] {["@property --foo"]} None in
  String.prefix "@property " "@property --foo" = true
  ∧ "@property --foo" ∈ seenAtProperties p
  ∧ stringify 0 (Rule "@property --foo" [] []) p
    = ("@property --foo;" +:+ newline, Rule "@property --foo" [] [], p)
  ∧ css (toCss (replicate 2 (Rule "@property --foo" [] [])) false)
    = ("@property --foo;" +:+ newline) +:+ "@property --foo;" +:+ newline.
Proof.
  intros p. split; [reflexivity|]. split; [vm_compute; reflexivity|].
  pose proof (childless_property_rule_is_printed "@property --foo" [] p
                eq_refl) as (Hprint & _ & Hcopies).
  split; [exact Hprint|exact (Hcopies 2 false)].
Defined.

(** The design document's examples of the statement at-rule and of the
    deduplication of [@property] rules. *)
Example statement_at_rule :
  css (toCss [rule "@layer base, components" []] false)
  = "@layer base, components;" +:+ newline.
Proof. reflexivity. Qed.

Example property_rules_example :
  let r := rule "@property --foo" [decl "syntax" "'*'"] in
  css (toCss [r; r; rule ".a" [r]] false)
  = "@property --foo {" +:+ newline
      +:+ "  syntax: '*';" +:+ newline
      +:+ "}" +:+ newline
      +:+ ".a {" +:+ newline
      +:+ "  @property --foo {" +:+ newline
      +:+ "    syntax: '*';" +:+ newline
      +:+ "  }" +:+ newline
      +:+ "}" +:+ newline.
Proof. by vm_compute. Qed.

(** C6, as stated, fails for rules without children: of two top-level rules
    ['@property --foo'] without children the second is printed although the
    first has been, and with tracking it is given a mapping. *)
Lemma childless_duplicate_is_printed :
  let r := rule "@property --foo" [] in
  ¬ (css (toCss [r; r] false) = css (toCss [r] false)
     ∧ tree (toCss [r; r] true) = tree (toCss [r] true) ++ [r]).
Proof. intros r [Hcss _]. vm_compute in Hcss. discriminate Hcss. Qed.

Section PropertyRules.
Variable selector : string.
Hypothesis Hprefix : String.prefix "@property " selector = true.

(** A seen selector: the rule prints nothing and nothing changes. *)
Lemma property_rule_seen nodes mappings p :
  nodes ≠ [] →
  selector ∈ seenAtProperties p →
  stringify 0 (Rule selector nodes mappings) p
  = ("", Rule selector nodes mappings, p).
Proof using Hprefix.
  intros Hnodes Hseen.
  destruct (property_selector _ Hprefix) as (Hat & Hroot & Hutilities).
  rewrite stringify_rule. cbv zeta.
  rewrite Hroot, Hutilities, Hat, Hprefix.
  rewrite (bool_decide_eq_false_2 (length nodes = 0))
    by (by destruct nodes).
  by rewrite (bool_decide_eq_true_2 _ Hseen).
Qed.

(** A selector not seen yet: it is added to the set and the rule prints
    as a block. *)
Lemma property_rule_fresh nodes mappings p inner nodes' p2 :
  nodes ≠ [] →
  selector ∉ seenAtProperties p →
  stringifyAll 1 nodes
    (advance 1 (mkPrinter (atRoots p) ({[selector]} ∪ seenAtProperties p)
                  (location p))) = (inner, nodes', p2) →
  stringify 0 (Rule selector nodes mappings) p
  = (((selector +:+ " {" +:+ newline) +:+ inner) +:+ "}" +:+ newline,
     Rule selector nodes' (push_destination mappings "" p),
     advance 1 p2)
  ∧ selector ∈ seenAtProperties (advance 1 p2).
Proof using Hprefix.
  intros Hnodes Hfresh Hinner.
  destruct (property_selector _ Hprefix) as (Hat & Hroot & Hutilities).
  rewrite stringify_rule. cbv zeta.
  rewrite Hroot, Hutilities, Hat, Hprefix.
  rewrite (bool_decide_eq_false_2 (length nodes = 0))
    by (by destruct nodes).
  rewrite (bool_decide_eq_false_2 _ Hfresh). simpl.
  rewrite Hinner. split; [done|].
  rewrite seenAtProperties_advance.
  pose proof (stringifyAll_nested_seen nodes 1
    (advance 1 (mkPrinter (atRoots p) ({[selector]} ∪ seenAtProperties p)
                  (location p))) ltac:(lia)) as Hkept.
  rewrite Hinner in Hkept. simpl in Hkept.
  rewrite Hkept, seenAtProperties_advance. simpl.
  apply elem_of_union. left. by apply elem_of_singleton.
Qed.

(** Below the top level the rule prints as a block whether or not its
    selector has been seen, and the set stays as it is. *)
Lemma property_rule_nested nodes mappings depth p inner nodes' p2 :
  nodes ≠ [] →
  0 < depth →
  stringifyAll (depth + 1) nodes (advance 1 p) = (inner, nodes', p2) →
  stringify depth (Rule selector nodes mappings) p
  = (((repeat_string "  " depth +:+ selector +:+ " {" +:+ newline)
        +:+ inner) +:+ repeat_string "  " depth +:+ "}" +:+ newline,
     Rule selector nodes' (push_destination mappings
                             (repeat_string "  " depth) p),
     advance 1 p2)
  ∧ seenAtProperties (advance 1 p2) = seenAtProperties p.
Proof using Hprefix.
  intros Hnodes Hdepth Hinner.
  destruct (property_selector _ Hprefix) as (Hat & Hroot & Hutilities).
  rewrite stringify_rule. cbv zeta.
  rewrite Hroot, Hutilities, Hat, Hprefix.
  rewrite (bool_decide_eq_false_2 (length nodes = 0))
    by (by destruct nodes).
  rewrite (bool_decide_eq_false_2 (depth = 0)) by lia. simpl.
  rewrite Hinner. split; [done|].
  pose proof (stringifyAll_nested_seen nodes (depth + 1) (advance 1 p)
                ltac:(lia)) as Hkept.
  rewrite Hinner in Hkept. simpl in Hkept.
  by rewrite seenAtProperties_advance, Hkept, seenAtProperties_advance.
Qed.

(** The second of two such top-level rules with the same selector gives no
    text and is left as it was. *)
Lemma property_rule_twice nodes mappings nodes2 mappings2 track :
  nodes ≠ [] → nodes2 ≠ [] →
  css (toCss [Rule selector nodes mappings; Rule selector nodes2 mappings2]
         track)
  = css (toCss [Rule selector nodes mappings] track)
  ∧ tree (toCss [Rule selector nodes mappings;
                 Rule selector nodes2 mappings2] track)
    = tree (toCss [Rule selector nodes mappings] track)
        ++ [Rule selector nodes2 mappings2].
Proof using Hprefix.
  intros Hnodes Hnodes2. unfold toCss. rewrite !stringifyAll_cons.
  destruct (stringifyAll 1 nodes
    (advance 1 (mkPrinter (atRoots (initial track))
                  ({[selector]} ∪ seenAtProperties (initial track))
                  (location (initial track))))) as [[inner nodes'] p2]
    eqn:Hinner.
  destruct (property_rule_fresh nodes mappings (initial track) _ _ _
              Hnodes (not_elem_of_empty _) Hinner) as [-> Hseen].
  rewrite stringifyAll_cons.
  rewrite (property_rule_seen nodes2 mappings2 _ Hnodes2 Hseen).
  simpl. by destruct (stringifyAll 0 (atRoots (advance 1 p2)) (advance 1 p2))
    as [[css' hoisted'] p'].
Qed.
End PropertyRules.

(** C6, amended.  At depth 0 a rule that has children and whose selector
    starts with ['@property '] prints nothing, gets no mapping and changes
    nothing when its selector is in the set of seen selectors, which holds
    the selectors of the rules of this kind printed so far by this call;
    otherwise the selector is added to the set and the rule prints as a
    block.  Below depth 0 such a rule always prints as a block and the set
    is left alone.  So of two top-level rules of this kind with the same
    selector only the first prints. *)
Theorem property_rule_dedup selector nodes mappings p :
  String.prefix "@property " selector = true →
  nodes ≠ [] →
  (selector ∈ seenAtProperties p →
     stringify 0 (Rule selector nodes mappings) p
     = ("", Rule selector nodes mappings, p))
  ∧ (selector ∉ seenAtProperties p →
     ∀ inner nodes' p2,
       stringifyAll 1 nodes
         (advance 1 (mkPrinter (atRoots p)
                       ({[selector]} ∪ seenAtProperties p) (location p)))
       = (inner, nodes', p2) →
       stringify 0 (Rule selector nodes mappings) p
       = (((selector +:+ " {" +:+ newline) +:+ inner) +:+ "}" +:+ newline,
          Rule selector nodes' (push_destination mappings "" p),
          advance 1 p2)
       ∧ selector ∈ seenAtProperties (advance 1 p2))
  ∧ (∀ depth inner nodes' p2,
       0 < depth →
       stringifyAll (depth + 1) nodes (advance 1 p) = (inner, nodes', p2) →
       stringify depth (Rule selector nodes mappings) p
       = (((repeat_string "  " depth +:+ selector +:+ " {" +:+ newline)
             +:+ inner) +:+ repeat_string "  " depth +:+ "}" +:+ newline,
          Rule selector nodes'
            (push_destination mappings (repeat_string "  " depth) p),
          advance 1 p2)
       ∧ seenAtProperties (advance 1 p2) = seenAtProperties p)
  ∧ (∀ nodes2 mappings2 track,
       nodes2 ≠ [] →
       css (toCss [Rule selector nodes mappings;
                   Rule selector nodes2 mappings2] track)
       = css (toCss [Rule selector nodes mappings] track)
       ∧ tree (toCss [Rule selector nodes mappings;
                      Rule selector nodes2 mappings2] track)
         = tree (toCss [Rule selector nodes mappings] track)
             ++ [Rule selector nodes2 mappings2]).
Proof.
  intros Hprefix Hnodes. repeat split.
  - intros Hseen. by apply property_rule_seen.
  - by apply property_rule_fresh.
  - eapply property_rule_fresh; eauto.
  - by apply property_rule_nested.
  - eapply property_rule_nested; eauto.
  - by apply property_rule_twice.
  - by apply property_rule_twice.
Qed.

Lemma property_rule_dedup_witness :
  let selector := "@property --foo" in
  let nodes := [decl "syntax" "'*'"] in
  let seen := mkPrinter [] {[selector]} None in
  String.prefix "@property " selector = true
  ∧ nodes ≠ []
  ∧ selector ∈ seenAtProperties seen
  ∧ stringify 0 (Rule selector nodes []) seen = ("", Rule selector nodes [], seen)
  ∧ (selector ∉ seenAtProperties (initial false))
  ∧ (stringify 0 (Rule selector nodes []) (initial false)).1.1
    = "@property --foo {" +:+ newline +:+ "  syntax: '*';" +:+ newline
        +:+ "}" +:+ newline
  ∧ selector
    ∈ seenAtProperties (stringify 0 (Rule selector nodes []) (initial false)).2
  ∧ 0 < 1
  ∧ (stringify 1 (Rule selector nodes []) seen).1.1
    = "  @property --foo {" +:+ newline +:+ "    syntax: '*';" +:+ newline
        +:+ "  }" +:+ newline
  ∧ css (toCss [Rule selector nodes []; Rule selector nodes []] true)
    = css (toCss [Rule selector nodes []] true)
  ∧ tree (toCss [Rule selector nodes []; Rule selector nodes []] true)
    = tree (toCss [Rule selector nodes []] true) ++ [Rule selector nodes []].
Proof.
  intros selector nodes seen.
  assert (String.prefix "@property " selector = true) as H1 by reflexivity.
  assert (nodes ≠ []) as H2 by discriminate.
  assert (selector ∈ seenAtProperties seen) as H3 by (vm_compute; reflexivity).
  assert (selector ∉ seenAtProperties (initial false)) as H4
    by (vm_compute; discriminate).
  assert (0 < 1) as H5 by lia.
  split; [exact H1|]. split; [exact H2|]. split; [exact H3|].
  split; [exact (proj1 (property_rule_dedup selector nodes [] seen H1 H2) H3)|].
  split; [exact H4|].
  destruct (proj1 (proj2 (property_rule_dedup selector nodes []
                            (initial false) H1 H2)) H4 _ _ _ eq_refl)
    as [Hfresh Hmarked].
  split; [by rewrite Hfresh|]. split; [by rewrite Hfresh|].
  split; [exact H5|].
  destruct (proj1 (proj2 (proj2 (property_rule_dedup selector nodes [] seen
                                   H1 H2))) 1 _ _ _ H5 eq_refl)
    as [Hnested _].
  split; [by rewrite Hnested|].
  exact (proj2 (proj2 (proj2
           (property_rule_dedup selector nodes [] (initial true) H1 H2)))
           nodes [] true H2).
Defined.

(** C9. A call of [toCss] without destination tracking leaves every node as
    it was, the hoisted ones included, and starts from a state of its own
    ([initial]): a second call on the tree that the first one leaves
    returns the same text, and ends in the same state. *)
Theorem toCss_twice_without_tracking ast :
  let first := toCss ast false in
  tree first = ast
  ∧ hoisted first = atRoots (stringifyAll 0 ast (initial false)).2
  ∧ css (toCss (tree first) false) = css first
  ∧ toCss (tree first) false = first.
Proof.
  assert (tree (toCss ast false) = ast
          ∧ hoisted (toCss ast false)
            = atRoots (stringifyAll 0 ast (initial false)).2) as [Htree Hh].
  { unfold toCss.
    destruct (stringifyAll_untracked ast 0 (initial false) eq_refl)
      as [Hast Hloc].
    destruct (stringifyAll 0 ast (initial false)) as [[css1 ast'] p1].
    simpl in Hast, Hloc.
    destruct (stringifyAll_untracked (atRoots p1) 0 p1 Hloc) as [Hroots _].
    destruct (stringifyAll 0 (atRoots p1) p1) as [[css2 hoisted'] p2].
    done. }
  simpl. by rewrite Htree.
Qed.

(** C2. The children of an [@at-root] rule that is itself among the
    hoisted nodes are added to [atRoots] while the hoisted nodes are
    printed, and are never printed: the loop runs over the array that
    [atRoots] held when it started.  The declaration of [nested_at_root]
    and that of [at_root_below_hoisted_rule] are in [atRoots] when [toCss]
    returns and not in its text; one level of [@at-root] is printed after
    the rest. *)
Theorem nested_at_root_is_never_printed :
  css (toCss nested_at_root false) = ""
  ∧ atRoots (final (toCss nested_at_root false))
    = [ rule "@at-root" [ decl "color" "red" ]; decl "color" "red" ]
  ∧ css (toCss at_root_below_hoisted_rule false)
    = ".a {" +:+ newline +:+ "}" +:+ newline
  ∧ atRoots (final (toCss at_root_below_hoisted_rule false))
    = [ rule ".a" [ rule "@at-root" [ decl "color" "red" ] ];
        decl "color" "red" ]
  ∧ css (toCss [ rule "@at-root" [ decl "color" "red" ];
                 rule ".a" [ decl "color" "blue" ] ] false)
    = ".a {" +:+ newline +:+ "  color: blue;" +:+ newline +:+ "}" +:+ newline
        +:+ "color: red;" +:+ newline.
Proof. repeat split; by vm_compute. Qed.

(** C7. The rule of [two_line_selector] prints four lines of text, the
    first two for its selector, and moves the cursor by three: one for the
    line it opens, one for its declaration, one for the line it closes.
    The declaration is printed on line 3 and mapped to line 2, the comment
    after the rule is printed on line 5 and mapped to line 4.  A newline in
    the value of a comment is counted: the declaration after the comment of
    [two_line_comment] is printed on line 3 and mapped to line 3. *)
Theorem selector_newlines_are_not_counted :
  let text :=
    ".a," +:+ newline +:+ ".b {" +:+ newline
      +:+ "  color: red;" +:+ newline +:+ "}" +:+ newline in
  let first := stringify 0 (rule (".a," +:+ newline +:+ ".b")
                              [decl "color" "red"]) (initial true) in
  first.1.1 = text
  ∧ lines_of_text text = 4
  ∧ location first.2 = Some (mkLocation 4 0)
  ∧ css (toCss two_line_selector true) = text +:+ "/* x */" +:+ newline
  ∧ tree (toCss two_line_selector true)
    = [ Rule (".a," +:+ newline +:+ ".b")
          [ Declaration "color" (Some "red") false [at_line 2 2] ]
          [at_line 1 0];
        Comment " x " [at_line 4 0] ]
  ∧ location (final (toCss two_line_selector true)) = Some (mkLocation 5 0)
  ∧ lines_of_text (css (toCss two_line_selector true)) = 5
  ∧ tree (toCss two_line_comment true)
    = [ Comment (" a" +:+ newline +:+ "b ") [at_line 1 0];
        Declaration "color" (Some "red") false [at_line 3 0] ].
Proof. repeat split; by vm_compute. Qed.

(** * Further properties of the walker *)

Section WalkerInvariants.
Context {St : Type}.
Variable visit : St → AstNode → Visited St.


End WalkerInvariants.





Section WalkerPassesOver.
Context {St : Type}.
Variable visit : St → AstNode → Visited St.

End WalkerPassesOver.



Lemma walk_from_delete_if unwanted :
  ∀ fuel done rest,
    count_all rest < fuel →
    ∃ r, walk_from (delete_if unwanted) fuel (done ++ rest) (length done) tt
           = Some r
         ∧ ast_after r = done ++ prune_all unwanted rest
         ∧ visits r = preorder_all rest.
Proof.
  induction fuel as [|fuel IH]; intros done rest Hfuel; [lia|].
  simpl. rewrite lookup_here.
  destruct rest as [|node rest]; simpl; [by eexists|]. unfold_visit.
  rewrite count_all_cons, count_nodes_children in Hfuel.
  destruct (IH [] (children node)) as (inner & Hinner & Hin_ast & Hin_visits);
    [lia|].
  simpl in Hinner, Hin_ast.
  rewrite preorder_children.
  assert (delete_if unwanted tt node
          = mkVisited node (if unwanted node then Some (Many []) else None)
              None tt) as -> by done.
  simpl. destruct (unwanted node) eqn:Hunwanted; simpl.
  - (* the node is deleted; its children are walked all the same *)
    rewrite splice_here. simpl.
    destruct (IH done rest) as (r & Hr & Hast & Hvisits); [lia|].
    destruct node as [selector nodes mappings| |]; simpl in *.
    + rewrite Hinner. simpl. destruct (state_after inner).
      rewrite Hr. simpl.
      eexists. split; [done|]. simpl.
      by rewrite Hunwanted, Hast, Hin_visits, Hvisits.
    + rewrite Hr. simpl. eexists. split; [done|]. simpl.
      by rewrite Hunwanted, Hast, Hvisits.
    + rewrite Hr. simpl. eexists. split; [done|]. simpl.
      by rewrite Hunwanted, Hast, Hvisits.
  - rewrite insert_here.
    assert (∀ x, ∃ r,
      walk_from (delete_if unwanted) fuel (done ++ x :: rest)
        (length done + 1) tt = Some r
      ∧ ast_after r = done ++ x :: prune_all unwanted rest
      ∧ visits r = preorder_all rest) as Hrest.
    { intros x. destruct (IH (done ++ [x]) rest) as (r & Hr & Hast & Hvisits);
        [lia|].
      rewrite <-app_assoc, length_app in Hr. rewrite <-app_assoc in Hast.
      by exists r. }
    destruct node as [selector nodes mappings| |]; simpl in *.
    + rewrite Hinner. simpl. destruct (state_after inner).
      rewrite insert_here.
      destruct (Hrest (Rule selector (ast_after inner) mappings))
        as (r & -> & Hast & Hvisits).
      simpl. eexists. split; [done|]. simpl.
      by rewrite Hunwanted, Hast, Hin_ast, Hin_visits, Hvisits.
    + destruct (Hrest (Declaration property value important mappings))
        as (r & -> & Hast & Hvisits).
      simpl. eexists. split; [done|]. simpl.
      by rewrite Hunwanted, Hast, Hvisits.
    + destruct (Hrest (Comment value mappings)) as (r & -> & Hast & Hvisits).
      simpl. eexists. split; [done|]. simpl.
      by rewrite Hunwanted, Hast, Hvisits.
Qed.

(** X5. A pass that calls [replaceWith([])] on the nodes that satisfy a test
    and returns nothing leaves the forest without those nodes, at every
    depth, the other nodes in their order.  It is called on every node of
    the forest it was given, in pre-order: also on the children of the rules
    it has deleted. *)
Theorem deleting_pass_prunes_the_forest unwanted ast fuel :
  count_all ast < fuel →
  ∃ r, walk (delete_if unwanted) fuel ast tt = Some r
       ∧ ast_after r = prune_all unwanted ast
       ∧ visits r = preorder_all ast.
Proof. exact (walk_from_delete_if unwanted fuel [] ast). Qed.

Lemma deleting_pass_prunes_the_forest_witness :
  count_all ten_nodes < 11
  ∧ ∃ r, walk (delete_if is_declaration) 11 ten_nodes tt = Some r
         ∧ ast_after r = [rule ".a" []; rule ".b" []; comment " x "]
         ∧ visits r = preorder_all ten_nodes.
Proof.
  assert (count_all ten_nodes < 11) as H1 by (vm_compute; lia).
  split; [exact H1|].
  exact (deleting_pass_prunes_the_forest is_declaration ten_nodes 11 H1).
Defined.

Lemma walk_from_edit_with edit :
  (∀ node, children (edit node) = children node) →
  ∀ fuel done rest,
    count_all rest < fuel →
    ∃ r, walk_from (edit_with edit) fuel (done ++ rest) (length done) tt
           = Some r
         ∧ ast_after r = done ++ map (rewrite_with edit) rest
         ∧ visits r = preorder_all rest.
Proof.
  intros Hkeep.
  induction fuel as [|fuel IH]; intros done rest Hfuel; [lia|].
  simpl. rewrite lookup_here.
  destruct rest as [|node rest]; simpl; [by eexists|]. unfold_visit.
  rewrite count_all_cons, count_nodes_children in Hfuel.
  destruct (IH [] (children node)) as (inner & Hinner & Hin_ast & Hin_visits);
    [lia|].
  simpl in Hinner, Hin_ast.
  rewrite preorder_children.
  assert (edit_with edit tt node = mkVisited (edit node) None None tt) as ->
    by done.
  simpl. rewrite insert_here.
  assert (∀ x, ∃ r,
    walk_from (edit_with edit) fuel (done ++ x :: rest)
      (length done + 1) tt = Some r
    ∧ ast_after r = done ++ x :: map (rewrite_with edit) rest
    ∧ visits r = preorder_all rest) as Hrest.
  { intros x. destruct (IH (done ++ [x]) rest) as (r & Hr & Hast & Hvisits);
      [lia|].
    rewrite <-app_assoc, length_app in Hr. rewrite <-app_assoc in Hast.
    by exists r. }
  pose proof (Hkeep node) as Hkids.
  assert (rewrite_with edit node
          = set_children (edit node)
              (map (rewrite_with edit) (children node))) as Hrewrite.
  { destruct node; simpl in *; [done|..];
      destruct (edit _); simpl in *; by subst. }
  rewrite Hrewrite.
  destruct (edit node) as [selector nodes mappings| |]; simpl in *.
  - subst nodes. rewrite Hinner. simpl. destruct (state_after inner).
    rewrite insert_here.
    destruct (Hrest (Rule selector (ast_after inner) mappings))
      as (r & -> & Hast & Hvisits).
    simpl. eexists. split; [done|]. simpl.
    by rewrite Hast, Hin_ast, Hin_visits, Hvisits.
  - destruct (Hrest (Declaration property value important mappings))
      as (r & -> & Hast & Hvisits).
    simpl. eexists. split; [done|]. simpl.
    by rewrite Hast, Hvisits, <-Hkids.
  - destruct (Hrest (Comment value mappings)) as (r & -> & Hast & Hvisits).
    simpl. eexists. split; [done|]. simpl.
    by rewrite Hast, Hvisits, <-Hkids.
Qed.

(** X6. A pass that edits every node it is handed in place, without
    touching child lists, and returns nothing is called once on every node
    of the forest as it was, in pre-order, and leaves the forest with every
    node edited. *)
Theorem editing_pass_rewrites_the_forest edit ast fuel :
  (∀ node, children (edit node) = children node) →
  count_all ast < fuel →
  ∃ r, walk (edit_with edit) fuel ast tt = Some r
       ∧ ast_after r = map (rewrite_with edit) ast
       ∧ visits r = preorder_all ast.
Proof.
  intros Hkeep. exact (walk_from_edit_with edit Hkeep fuel [] ast).
Qed.

Lemma editing_pass_rewrites_the_forest_witness :
  (∀ node, children (make_important node) = children node)
  ∧ count_all ten_nodes < 11
  ∧ ∃ r, walk (edit_with make_important) 11 ten_nodes tt = Some r
         ∧ ast_after r = map (rewrite_with make_important) ten_nodes
         ∧ visits r = preorder_all ten_nodes.
Proof.
  assert (∀ node, children (make_important node) = children node) as H1
    by (intros node; destruct node; reflexivity).
  assert (count_all ten_nodes < 11) as H2 by (vm_compute; lia).
  split; [exact H1|]. split; [exact H2|].
  exact (editing_pass_rewrites_the_forest make_important ten_nodes 11 H1 H2).
Defined.

(** * Further properties of the printer *)

Lemma append_assoc s1 s2 s3 : (s1 +:+ s2) +:+ s3 = s1 +:+ s2 +:+ s3.
Proof.
  induction s1 as [|c s1 IH]; [done|].
  change (String c ((s1 +:+ s2) +:+ s3) = String c (s1 +:+ s2 +:+ s3)).
  by rewrite IH.
Qed.

Lemma newlines_append s1 s2 : newlines (s1 +:+ s2) = newlines s1 + newlines s2.
Proof.
  unfold newlines. induction s1 as [|c s1 IH]; [done|].
  change (list_ascii_of_string (String c s1 +:+ s2))
    with (c :: list_ascii_of_string (s1 +:+ s2)).
  change (list_ascii_of_string (String c s1))
    with (c :: list_ascii_of_string s1).
  rewrite !filter_cons. case_decide; simpl; by rewrite IH.
Qed.

Lemma newlines_indent depth : newlines (repeat_string "  " depth) = 0.
Proof.
  induction depth as [|depth IH]; [done|].
  change (repeat_string "  " (S depth))
    with ("  " +:+ repeat_string "  " depth).
  by rewrite newlines_append, IH.
Qed.

Lemma lines_of_value_newlines value : lines_of_value value = 1 + newlines value.
Proof. unfold lines_of_value, newlines. rewrite length_split. lia. Qed.

(** Printing a sequence is printing its two halves one after the other. *)
Lemma stringifyAll_app depth nodes1 nodes2 p :
  stringifyAll depth (nodes1 ++ nodes2) p =
  let '(css1, nodes1', p1) := stringifyAll depth nodes1 p in
  let '(css2, nodes2', p2) := stringifyAll depth nodes2 p1 in
  (css1 +:+ css2, nodes1' ++ nodes2', p2).
Proof.
  revert p. induction nodes1 as [|child nodes1 IH]; intros p.
  - simpl. by destruct (stringifyAll depth nodes2 p) as [[css2 nodes2'] p2].
  - change ((child :: nodes1) ++ nodes2) with (child :: (nodes1 ++ nodes2)).
    rewrite !stringifyAll_cons.
    destruct (stringify depth child p) as [[css child'] p0].
    rewrite IH.
    destruct (stringifyAll depth nodes1 p0) as [[css1 nodes1'] p1].
    destruct (stringifyAll depth nodes2 p1) as [[css2 nodes2'] p2].
    by rewrite append_assoc.
Qed.

(** X7. A rule with the selector ['@tailwind utilities'] is transparent:
    the text and the final state of [toCss] are those of the forest with the
    children of the rule in its place. *)
Theorem tailwind_utilities_is_transparent before nodes mappings after track :
  css (toCss (before ++ Rule "@tailwind utilities" nodes mappings :: after)
         track)
  = css (toCss (before ++ nodes ++ after) track)
  ∧ final (toCss (before ++ Rule "@tailwind utilities" nodes mappings :: after)
             track)
    = final (toCss (before ++ nodes ++ after) track).
Proof.
  unfold toCss.
  rewrite (stringifyAll_app 0 before (_ :: after)).
  rewrite (stringifyAll_app 0 before (nodes ++ after)).
  destruct (stringifyAll 0 before (initial track)) as [[css1 before'] p1].
  rewrite stringifyAll_cons, stringify_rule, stringifyAll_app. cbv zeta.
  simpl.
  destruct (stringifyAll 0 nodes p1) as [[css2 nodes'] p2].
  destruct (stringifyAll 0 after p2) as [[css3 after'] p3].
  by destruct (stringifyAll 0 (atRoots p3) p3) as [[css4 hoisted'] p4].
Qed.

Lemma untracked_advance lines p : untracked (advance lines p) = untracked p.
Proof. unfold advance, untracked. by destruct (location p). Qed.

(** The cursor has no part in the text, in [atRoots] or in the set of seen
    selectors. *)
Lemma stringify_without_cursor node :
  ∀ depth p,
    (stringify depth node (untracked p)).1.1 = (stringify depth node p).1.1
    ∧ (stringify depth node (untracked p)).2
      = untracked (stringify depth node p).2.
Proof.
  induction node as [selector nodes mappings IH|property value important mappings|
                     value mappings] using AstNode_forall_ind;
    intros depth p.
  - assert (∀ depth p,
      (stringifyAll depth nodes (untracked p)).1.1
      = (stringifyAll depth nodes p).1.1
      ∧ (stringifyAll depth nodes (untracked p)).2
        = untracked (stringifyAll depth nodes p).2) as Hall.
    { clear depth p.
      induction IH as [|child nodes Hchild _ IHnodes]; intros depth p;
        [done|].
      rewrite !stringifyAll_cons.
      destruct (Hchild depth p) as [Hc Hp].
      destruct (stringify depth child p) as [[css child'] p1].
      destruct (stringify depth child (untracked p)) as [[css0 child0] p0].
      simpl in Hc, Hp. subst.
      destruct (IHnodes depth p1) as [Hn Hp'].
      destruct (stringifyAll depth nodes p1) as [[css' nodes'] p2].
      destruct (stringifyAll depth nodes (untracked p1))
        as [[css0' nodes0'] p0'].
      simpl in *. by subst. }
    rewrite !stringify_rule. cbv zeta.
    change (seenAtProperties (untracked p)) with (seenAtProperties p).
    destruct (bool_decide (selector = "@at-root")); [done|].
    destruct (bool_decide (selector = "@tailwind utilities")).
    { destruct (Hall depth p) as [Hn Hp].
      destruct (stringifyAll depth nodes p) as [[css nodes'] p'].
      destruct (stringifyAll depth nodes (untracked p)) as [[css0 nodes0] p0].
      simpl in *. by subst. }
    destruct (at_rule selector && bool_decide (length nodes = 0)).
    { simpl. by rewrite untracked_advance. }
    destruct (at_rule selector && String.prefix "@property " selector
              && bool_decide (depth = 0)
              && bool_decide (selector ∈ seenAtProperties p)); [done|].
    match goal with |- context [advance 1 ?q] =>
      match q with
      | untracked _ => fail 1
      | context [untracked] => set (q0 := q)
      end end.
    match goal with |- context [stringifyAll _ _ (advance 1 ?q)] =>
      match q with
      | q0 => fail 1
      | _ => set (p0 := q)
      end end.
    assert (advance 1 q0 = untracked (advance 1 p0)) as ->.
    { rewrite untracked_advance. unfold q0, p0.
      by destruct (at_rule selector && String.prefix "@property " selector
                   && bool_decide (depth = 0)). }
    destruct (Hall (depth + 1) (advance 1 p0)) as [Hn Hp].
    destruct (stringifyAll (depth + 1) nodes (advance 1 p0))
      as [[inner nodes'] p2].
    destruct (stringifyAll (depth + 1) nodes (untracked (advance 1 p0)))
      as [[inner0 nodes0] p20].
    simpl in *. subst. split; [done|].
    rewrite untracked_advance. apply advance_untracked. done.
  - simpl. destruct value; [|done]. case_bool_decide; [|done]. simpl.
    by rewrite untracked_advance.
  - simpl. by rewrite untracked_advance.
Qed.

Lemma stringifyAll_without_cursor nodes :
  ∀ depth p,
    (stringifyAll depth nodes (untracked p)).1.1
    = (stringifyAll depth nodes p).1.1
    ∧ (stringifyAll depth nodes (untracked p)).2
      = untracked (stringifyAll depth nodes p).2.
Proof.
  induction nodes as [|child nodes IH]; intros depth p; [done|].
  rewrite !stringifyAll_cons.
  destruct (stringify_without_cursor child depth p) as [Hc Hp].
  destruct (stringify depth child p) as [[css child'] p1].
  destruct (stringify depth child (untracked p)) as [[css0 child0] p0].
  simpl in Hc, Hp. subst.
  destruct (IH depth p1) as [Hn Hp'].
  destruct (stringifyAll depth nodes p1) as [[css' nodes'] p2].
  destruct (stringifyAll depth nodes (untracked p1)) as [[css0' nodes0'] p0'].
  simpl in *. by subst.
Qed.

(** X8. Destination tracking has no part in the text: [toCss] returns the
    same text with and without it, and ends with the same hoisted nodes and
    the same set of seen selectors. *)
Theorem tracking_does_not_change_the_text ast :
  css (toCss ast true) = css (toCss ast false)
  ∧ atRoots (final (toCss ast true)) = atRoots (final (toCss ast false))
  ∧ seenAtProperties (final (toCss ast true))
    = seenAtProperties (final (toCss ast false)).
Proof.
  unfold toCss.
  change (initial false) with (untracked (initial true)).
  destruct (stringifyAll_without_cursor ast 0 (initial true)) as [Hcss Hp].
  destruct (stringifyAll 0 ast (initial true)) as [[css1 ast1] p1].
  destruct (stringifyAll 0 ast (untracked (initial true)))
    as [[css0 ast0] p0].
  simpl in Hcss, Hp. subst. simpl.
  destruct (stringifyAll_without_cursor (atRoots p1) 0 p1) as [Hcss Hp].
  destruct (stringifyAll 0 (atRoots p1) p1) as [[css2 hoisted2] p2].
  destruct (stringifyAll 0 (atRoots p1) (untracked p1))
    as [[css0 hoisted0] p0].
  simpl in *. by subst.
Qed.

Lemma pushed_on_push_destination mappings indent p :
  pushed_on mappings (push_destination mappings indent p).
Proof.
  unfold pushed_on, push_destination. destruct (location p); eauto.
Qed.

Lemma grown_refl node : grown node node.
Proof.
  induction node as [selector nodes mappings IH| |] using AstNode_forall_ind;
    constructor; try by left.
  induction IH; by constructor.
Qed.

(** Printing a node changes nothing but mappings, and pushes one mapping at
    most on each node. *)
Lemma stringify_grown node :
  ∀ depth p, grown node (stringify depth node p).1.2.
Proof.
  induction node as [selector nodes mappings IH|property value important mappings|
                     value mappings] using AstNode_forall_ind;
    intros depth p.
  - assert (∀ depth p, Forall2 grown nodes (stringifyAll depth nodes p).1.2)
      as Hall.
    { clear depth p.
      induction IH as [|child nodes Hchild _ IHnodes]; intros depth p;
        [by constructor|].
      rewrite stringifyAll_cons.
      specialize (Hchild depth p).
      destruct (stringify depth child p) as [[css child'] p1].
      specialize (IHnodes depth p1).
      destruct (stringifyAll depth nodes p1) as [[css' nodes'] p2].
      by constructor. }
    rewrite stringify_rule. cbv zeta.
    destruct (bool_decide (selector = "@at-root")); [apply grown_refl|].
    destruct (bool_decide (selector = "@tailwind utilities")).
    { specialize (Hall depth p).
      destruct (stringifyAll depth nodes p) as [[css nodes'] p'].
      constructor; [by left|done]. }
    destruct (at_rule selector && bool_decide (length nodes = 0)).
    { simpl. constructor; [apply pushed_on_push_destination|].
      clear. induction nodes; constructor; [apply grown_refl|done]. }
    destruct (at_rule selector && String.prefix "@property " selector
              && bool_decide (depth = 0)
              && bool_decide (selector ∈ seenAtProperties p));
      [apply grown_refl|].
    destruct (at_rule selector && String.prefix "@property " selector
              && bool_decide (depth = 0)).
    all: match goal with |- context [stringifyAll ?d ?n ?q] =>
      specialize (Hall d q); destruct (stringifyAll d n q)
        as [[inner nodes'] p2] end.
    all: simpl; constructor; [apply pushed_on_push_destination|done].
  - simpl. destruct value; [|apply grown_refl]. case_bool_decide.
    + constructor. apply pushed_on_push_destination.
    + apply grown_refl.
  - simpl. constructor. apply pushed_on_push_destination.
Qed.

Lemma stringifyAll_grown nodes :
  ∀ depth p, Forall2 grown nodes (stringifyAll depth nodes p).1.2.
Proof.
  induction nodes as [|child nodes IH]; intros depth p; [by constructor|].
  rewrite stringifyAll_cons.
  pose proof (stringify_grown child depth p) as Hchild.
  destruct (stringify depth child p) as [[css child'] p1].
  specialize (IH depth p1).
  destruct (stringifyAll depth nodes p1) as [[css' nodes'] p2].
  by constructor.
Qed.

(** X9. [toCss] changes nothing in the forest but mappings, and mappings
    are only added at the end: every node of the forest, and every hoisted
    node, comes out with the fields it had and with at most one mapping
    pushed on its list. *)
Theorem toCss_only_pushes_mappings ast track :
  Forall2 grown ast (tree (toCss ast track))
  ∧ Forall2 grown (atRoots (stringifyAll 0 ast (initial track)).2)
      (hoisted (toCss ast track)).
Proof.
  unfold toCss.
  pose proof (stringifyAll_grown ast 0 (initial track)) as Htree.
  destruct (stringifyAll 0 ast (initial track)) as [[css1 ast'] p1].
  pose proof (stringifyAll_grown (atRoots p1) 0 p1) as Hhoisted.
  by destruct (stringifyAll 0 (atRoots p1) p1) as [[css2 hoisted'] p2].
Qed.

Lemma grown_unmapped node :
  ∀ node', grown node node' → unmapped node' = unmapped node.
Proof.
  induction node as [selector nodes mappings IH| |] using AstNode_forall_ind;
    intros node' Hgrown; inversion Hgrown as [? ? nodes' ? ? _ Hnodes| |];
    subst; simpl; [|done..].
  f_equal. clear Hgrown. revert nodes' Hnodes.
  induction IH as [|child nodes Hchild _ IHnodes]; intros nodes' Hnodes;
    inversion Hnodes; subst; simpl; [done|].
  f_equal; auto.
Qed.

Lemma Forall2_grown_unmapped nodes nodes' :
  Forall2 grown nodes nodes' → map unmapped nodes' = map unmapped nodes.
Proof.
  induction 1 as [|node node' nodes nodes' Hnode _ IH]; simpl; [done|].
  by rewrite IH, (grown_unmapped _ _ Hnode).
Qed.

Lemma same_but_mappings_advance lines p p' :
  same_but_mappings p p' → same_but_mappings (advance lines p) (advance lines p').
Proof.
  intros (Hroots & Hseen & Hloc). unfold same_but_mappings, advance.
  rewrite <-Hloc. destruct (location p) eqn:Hp; simpl; [done|].
  by rewrite Hp.
Qed.

(** The mappings have no part in the text or in what is hoisted, seen and
    counted. *)
Lemma stringify_unmapped node :
  ∀ node' depth p p',
    unmapped node = unmapped node' → same_but_mappings p p' →
    (stringify depth node p).1.1 = (stringify depth node' p').1.1
    ∧ same_but_mappings (stringify depth node p).2
        (stringify depth node' p').2.
Proof.
  induction node as [selector nodes mappings IH|property value important mappings|
                     value mappings] using AstNode_forall_ind;
    intros node' depth p p' Hnode Hp;
    destruct node' as [selector' nodes' mappings'| |]; simpl in Hnode;
    simplify_eq.
  - match goal with H : map unmapped nodes = map unmapped nodes' |- _ =>
      rename H into Hnodes end.
    assert (∀ nodes' depth p p',
      map unmapped nodes = map unmapped nodes' → same_but_mappings p p' →
      (stringifyAll depth nodes p).1.1 = (stringifyAll depth nodes' p').1.1
      ∧ same_but_mappings (stringifyAll depth nodes p).2
          (stringifyAll depth nodes' p').2) as Hall.
    { clear depth p p' Hp nodes' Hnodes.
      induction IH as [|child nodes Hchild _ IHnodes];
        intros nodes' depth p p' Hnodes Hp;
        destruct nodes' as [|child' nodes']; simpl in Hnodes;
        simplify_eq; [done|].
      rewrite !stringifyAll_cons.
      destruct (Hchild child' depth p p') as [Hcss Hp1]; [done..|].
      destruct (stringify depth child p) as [[css child1] p1].
      destruct (stringify depth child' p') as [[css0 child0] p0].
      destruct (IHnodes nodes' depth p1 p0) as [Hcss' Hp2]; [done..|].
      destruct (stringifyAll depth nodes p1) as [[css' nodes1] p2].
      destruct (stringifyAll depth nodes' p0) as [[css0' nodes0] p3].
      simpl in *. by subst. }
    assert (length nodes = length nodes') as Hlength
      by (by rewrite <-(length_map unmapped nodes), Hnodes, length_map).
    pose proof Hp as (Hroots & Hseen & Hloc).
    rewrite !stringify_rule. cbv zeta. rewrite <-Hlength, <-Hseen.
    destruct (bool_decide (selector' = "@at-root")).
    { split; [done|]. split; [|done]. simpl. by rewrite !map_app, Hroots, Hnodes. }
    destruct (bool_decide (selector' = "@tailwind utilities")).
    { destruct (Hall nodes' depth p p') as [Hcss Hp']; [done..|].
      destruct (stringifyAll depth nodes p) as [[css nodes1] p1].
      by destruct (stringifyAll depth nodes' p') as [[css0 nodes0] p0]. }
    destruct (at_rule selector' && bool_decide (length nodes = 0)).
    { split; [done|]. by apply same_but_mappings_advance. }
    destruct (at_rule selector' && String.prefix "@property " selector'
              && bool_decide (depth = 0)
              && bool_decide (selector' ∈ seenAtProperties p)); [done|].
    match goal with
    | |- context [stringifyAll _ nodes (advance 1 ?q)] => set (q1 := q)
    end.
    match goal with
    | |- context [stringifyAll _ nodes' (advance 1 ?q)] => set (q2 := q)
    end.
    assert (same_but_mappings q1 q2) as Hq.
    { unfold q1, q2.
      destruct (at_rule selector' && String.prefix "@property " selector'
                && bool_decide (depth = 0)); [|done].
      split; [done|]. split; [|done]. simpl. by rewrite Hseen. }
    destruct (Hall nodes' (depth + 1) (advance 1 q1) (advance 1 q2))
      as [Hcss Hp']; [done|by apply same_but_mappings_advance|].
    destruct (stringifyAll (depth + 1) nodes (advance 1 q1))
      as [[inner nodes1] p1].
    destruct (stringifyAll (depth + 1) nodes' (advance 1 q2))
      as [[inner0 nodes0] p0].
    simpl in *. subst. split; [done|]. by apply same_but_mappings_advance.
  - simpl. destruct value0; [|done]. case_bool_decide; [|done]. simpl.
    split; [done|]. by apply same_but_mappings_advance.
  - simpl. split; [done|]. by apply same_but_mappings_advance.
Qed.

Lemma stringifyAll_unmapped nodes :
  ∀ nodes' depth p p',
    map unmapped nodes = map unmapped nodes' → same_but_mappings p p' →
    (stringifyAll depth nodes p).1.1 = (stringifyAll depth nodes' p').1.1
    ∧ same_but_mappings (stringifyAll depth nodes p).2
        (stringifyAll depth nodes' p').2.
Proof.
  induction nodes as [|child nodes IH]; intros nodes' depth p p' Hnodes Hp;
    destruct nodes' as [|child' nodes']; simpl in Hnodes; simplify_eq;
    [done|].
  rewrite !stringifyAll_cons.
  destruct (stringify_unmapped child child' depth p p') as [Hcss Hp1];
    [done..|].
  destruct (stringify depth child p) as [[css child1] p1].
  destruct (stringify depth child' p') as [[css0 child0] p0].
  destruct (IH nodes' depth p1 p0) as [Hcss' Hp2]; [done..|].
  destruct (stringifyAll depth nodes p1) as [[css' nodes1] p2].
  destruct (stringifyAll depth nodes' p0) as [[css0' nodes0] p3].
  simpl in *. by subst.
Qed.

Lemma toCss_unmapped ast ast' track :
  map unmapped ast = map unmapped ast' →
  css (toCss ast track) = css (toCss ast' track).
Proof.
  intros Hast. unfold toCss.
  destruct (stringifyAll_unmapped ast ast' 0 (initial track) (initial track))
    as [Hcss Hp]; [done..|].
  destruct (stringifyAll 0 ast (initial track)) as [[css1 ast1] p1].
  destruct (stringifyAll 0 ast' (initial track)) as [[css0 ast0] p0].
  simpl in Hcss, Hp. subst.
  destruct (stringifyAll_unmapped (atRoots p1) (atRoots p0) 0 p1 p0)
    as [Hcss Hp']; [by destruct Hp|done|].
  destruct (stringifyAll 0 (atRoots p1) p1) as [[css2 hoisted2] p2].
  destruct (stringifyAll 0 (atRoots p0) p0) as [[css3 hoisted3] p3].
  simpl in *. by subst.
Qed.

(** X10. The mappings of the nodes have no part in the text: two forests
    that differ in their mappings only print the same.  So the text of a
    second call of [toCss] on the tree left by a first one is that of a first
    call on the tree, with or without tracking in either. *)
Theorem mappings_do_not_change_the_text :
  (∀ ast ast' track,
     map unmapped ast = map unmapped ast' →
     css (toCss ast track) = css (toCss ast' track))
  ∧ (∀ ast first second,
       css (toCss (tree (toCss ast first)) second) = css (toCss ast second)).
Proof.
  split; [exact toCss_unmapped|].
  intros ast first second. apply toCss_unmapped.
  apply Forall2_grown_unmapped.
  unfold toCss.
  pose proof (stringifyAll_grown ast 0 (initial first)) as Htree.
  destruct (stringifyAll 0 ast (initial first)) as [[css1 ast'] p1].
  by destruct (stringifyAll 0 (atRoots p1) p1) as [[css2 hoisted'] p2].
Qed.

Lemma mappings_do_not_change_the_text_witness :
  let ast := [Comment " a " [at_line 7 0]; rule ".a" [decl "color" "red"]] in
  let ast' := [comment " a "; Rule ".a" [decl "color" "red"] [at_line 1 0]] in
  map unmapped ast = map unmapped ast'
  ∧ css (toCss ast true) = css (toCss ast' true).
Proof.
  intros ast ast'.
  assert (map unmapped ast = map unmapped ast') as H1 by reflexivity.
  split; [exact H1|].
  exact (proj1 mappings_do_not_change_the_text ast ast' true H1).
Defined.

(** An invariant of the printer state is kept by [stringify] on the trees
    that satisfy [good], when the three writes of the state that [stringify]
    makes keep it: the move of the cursor, the insertion of a selector into
    the set of seen selectors and the push of the children of an [@at-root]
    rule. *)
Section PrinterInvariant.
Variable good : AstNode → bool.
Variable inv : Printer → Prop.
Hypothesis good_children : ∀ selector nodes mappings,
  good (Rule selector nodes mappings) = true → forallb good nodes = true.
Hypothesis inv_advance : ∀ lines p, inv p → inv (advance lines p).
Hypothesis inv_seen : ∀ selector p,
  String.prefix "@property " selector = true →
  inv p →
  inv (mkPrinter (atRoots p) ({[selector]} ∪ seenAtProperties p) (location p)).
Hypothesis inv_hoist : ∀ nodes mappings p,
  good (Rule "@at-root" nodes mappings) = true →
  inv p →
  inv (mkPrinter (atRoots p ++ nodes) (seenAtProperties p) (location p)).

Lemma stringify_invariant node :
  ∀ depth p, good node = true → inv p → inv (stringify depth node p).2.
Proof using good_children inv_advance inv_seen inv_hoist.
  induction node as [selector nodes mappings IH|property value important mappings|
                     value mappings] using AstNode_forall_ind;
    intros depth p Hgood Hinv.
  - assert (∀ depth p, inv p → inv (stringifyAll depth nodes p).2) as Hall.
    { pose proof (good_children _ _ _ Hgood) as Hnodes.
      clear depth p Hinv Hgood.
      induction IH as [|child nodes Hchild _ IHnodes]; intros depth p Hinv;
        [done|].
      apply andb_prop in Hnodes as [Hnode Hnodes].
      rewrite stringifyAll_cons.
      specialize (Hchild depth p Hnode Hinv).
      destruct (stringify depth child p) as [[css child'] p1].
      specialize (IHnodes Hnodes depth p1 Hchild).
      by destruct (stringifyAll depth nodes p1) as [[css' nodes'] p2]. }
    rewrite stringify_rule. cbv zeta.
    case_bool_decide as Hroot; [subst selector; simpl; by eapply inv_hoist|].
    destruct (bool_decide (selector = "@tailwind utilities")).
    { specialize (Hall depth p Hinv).
      by destruct (stringifyAll depth nodes p) as [[css nodes'] p']. }
    destruct (at_rule selector && bool_decide (length nodes = 0));
      [simpl; by apply inv_advance|].
    destruct (at_rule selector && String.prefix "@property " selector
              && bool_decide (depth = 0)) eqn:Hproperty.
    + apply andb_prop in Hproperty as [[_ Hprefix]%andb_prop _].
      destruct (bool_decide (selector ∈ seenAtProperties p)); [done|].
      cbn [andb].
      match goal with |- context [stringifyAll _ _ ?q] =>
        specialize (Hall (depth + 1) q); destruct (stringifyAll (depth + 1) nodes q)
          as [[inner nodes'] p2] end.
      simpl in *. auto.
    + cbn [andb].
      specialize (Hall (depth + 1) (advance 1 p)).
      destruct (stringifyAll (depth + 1) nodes (advance 1 p))
        as [[inner nodes'] p2].
      simpl in *. auto.
  - simpl. repeat case_match; simpl; auto.
  - simpl. auto.
Qed.

Lemma stringifyAll_invariant nodes :
  ∀ depth p,
    forallb good nodes = true → inv p → inv (stringifyAll depth nodes p).2.
Proof using good_children inv_advance inv_seen inv_hoist.
  induction nodes as [|child nodes IH]; intros depth p Hgood Hinv; [done|].
  apply andb_prop in Hgood as [Hnode Hnodes].
  rewrite stringifyAll_cons.
  pose proof (stringify_invariant child depth p Hnode Hinv) as Hchild.
  destruct (stringify depth child p) as [[css child'] p1].
  specialize (IH depth p1 Hnodes Hchild).
  by destruct (stringifyAll depth nodes p1) as [[css' nodes'] p2].
Qed.
End PrinterInvariant.

Lemma location_advance lines p loc :
  location p = Some loc →
  location (advance lines p)
  = Some (mkLocation (line loc + lines) (column loc)).
Proof. unfold advance. by intros ->. Qed.

Lemma newlines_newline : newlines newline = 1.
Proof. done. Qed.

Lemma single_line_names_rule selector nodes mappings :
  single_line_names (Rule selector nodes mappings) = true →
  newlines selector = 0 ∧ forallb single_line_names nodes = true.
Proof.
  simpl. intros [Hselector Hnodes]%andb_prop.
  by apply bool_decide_eq_true in Hselector.
Qed.

(** Where no selector and no property name has a newline in it, the cursor
    moves down by the number of lines of the text. *)
Lemma stringify_cursor node :
  ∀ depth p loc,
    single_line_names node = true →
    location p = Some loc →
    location (stringify depth node p).2
    = Some (mkLocation (line loc + newlines (stringify depth node p).1.1)
              (column loc)).
Proof.
  assert (∀ loc, Some loc = Some (mkLocation (line loc + 0) (column loc)))
    as Hstay by (intros [l c]; simpl; by rewrite Nat.add_0_r).
  induction node as [selector nodes mappings IH|property value important mappings|
                     value mappings] using AstNode_forall_ind;
    intros depth p loc Hnames Hloc.
  - apply single_line_names_rule in Hnames as [Hselector Hnames].
    assert (∀ depth p loc,
      location p = Some loc →
      location (stringifyAll depth nodes p).2
      = Some (mkLocation (line loc + newlines (stringifyAll depth nodes p).1.1)
                (column loc))) as Hall.
    { clear depth p loc Hloc.
      induction IH as [|child nodes Hchild _ IHnodes]; intros depth p loc Hloc.
      - simpl. rewrite Hloc. apply Hstay.
      - apply andb_prop in Hnames as [Hname Hnames].
        rewrite stringifyAll_cons.
        specialize (Hchild depth p loc Hname Hloc).
        destruct (stringify depth child p) as [[css child'] p1].
        specialize (IHnodes Hnames depth p1 _ Hchild).
        destruct (stringifyAll depth nodes p1) as [[css' nodes'] p2].
        simpl in *. rewrite IHnodes, newlines_append.
        do 2 f_equal. lia. }
    rewrite stringify_rule. cbv zeta.
    destruct (bool_decide (selector = "@at-root")).
    { simpl. rewrite Hloc. apply Hstay. }
    destruct (bool_decide (selector = "@tailwind utilities")).
    { specialize (Hall depth p loc Hloc).
      by destruct (stringifyAll depth nodes p) as [[css nodes'] p']. }
    destruct (at_rule selector && bool_decide (length nodes = 0)).
    { simpl. rewrite (location_advance _ _ _ Hloc).
      by rewrite !newlines_append, newlines_indent, Hselector. }
    destruct (at_rule selector && String.prefix "@property " selector
              && bool_decide (depth = 0)
              && bool_decide (selector ∈ seenAtProperties p)).
    { simpl. rewrite Hloc. apply Hstay. }
    match goal with |- context [stringifyAll _ _ (advance 1 ?q)] =>
      set (p0 := q) end.
    assert (location p0 = Some loc) as Hloc0
      by (unfold p0; by case_match).
    specialize (Hall (depth + 1) (advance 1 p0) _
                  (location_advance 1 _ _ Hloc0)).
    destruct (stringifyAll (depth + 1) nodes (advance 1 p0))
      as [[inner nodes'] p2].
    simpl in *. rewrite (location_advance _ _ _ Hall). simpl.
    rewrite !newlines_append, newlines_indent, Hselector.
    change (newlines " {") with 0. change (newlines "}") with 0.
    rewrite newlines_newline. do 2 f_equal. lia.
  - simpl in Hnames. apply bool_decide_eq_true in Hnames.
    destruct value as [text|]; simpl; [|rewrite Hloc; apply Hstay].
    case_bool_decide; simpl; [|rewrite Hloc; apply Hstay].
    rewrite (location_advance _ _ _ Hloc), lines_of_value_newlines.
    rewrite !newlines_append, newlines_indent, Hnames, newlines_newline.
    change (newlines ": ") with 0. change (newlines ";") with 0.
    replace (newlines (if important then "!important" else "")) with 0
      by (by destruct important).
    do 2 f_equal. lia.
  - simpl. rewrite (location_advance _ _ _ Hloc), lines_of_value_newlines.
    rewrite !newlines_append, newlines_indent, newlines_newline.
    change (newlines "/*") with 0. change (newlines "*/") with 0.
    do 2 f_equal. lia.
Qed.

Lemma stringifyAll_cursor nodes :
  ∀ depth p loc,
    forallb single_line_names nodes = true →
    location p = Some loc →
    location (stringifyAll depth nodes p).2
    = Some (mkLocation (line loc + newlines (stringifyAll depth nodes p).1.1)
              (column loc)).
Proof.
  induction nodes as [|child nodes IH]; intros depth p loc Hnames Hloc.
  - simpl. rewrite Hloc. destruct loc. simpl. by rewrite Nat.add_0_r.
  - apply andb_prop in Hnames as [Hname Hnames].
    rewrite stringifyAll_cons.
    pose proof (stringify_cursor child depth p loc Hname Hloc) as Hchild.
    destruct (stringify depth child p) as [[css child'] p1].
    specialize (IH depth p1 _ Hnames Hchild).
    destruct (stringifyAll depth nodes p1) as [[css' nodes'] p2].
    simpl in *. rewrite IH, newlines_append. do 2 f_equal. lia.
Qed.

(** What is hoisted from a forest with single-line names has single-line
    names. *)
Lemma stringifyAll_hoists_single_line_names nodes depth p :
  forallb single_line_names nodes = true →
  forallb single_line_names (atRoots p) = true →
  forallb single_line_names (atRoots (stringifyAll depth nodes p).2) = true.
Proof.
  apply (stringifyAll_invariant single_line_names
           (λ p, forallb single_line_names (atRoots p) = true)).
  - intros selector children mappings Hnames.
    by apply single_line_names_rule in Hnames as [_ ?].
  - intros lines q. by rewrite atRoots_advance.
  - done.
  - intros children mappings q Hnames Hroots. simpl.
    apply single_line_names_rule in Hnames as [_ Hnames].
    by rewrite forallb_app, Hroots, Hnames.
Qed.

(** X11. With tracking, on a forest in which no selector and no property
    name has a newline in it (values and comments may), the cursor ends on
    the line after the last line of the text: its line is one more than the
    number of newlines of the text, and its column is 0. *)
Theorem cursor_follows_the_text ast :
  forallb single_line_names ast = true →
  location (final (toCss ast true))
  = Some (mkLocation (1 + newlines (css (toCss ast true))) 0).
Proof.
  intros Hnames. unfold toCss.
  pose proof (stringifyAll_cursor ast 0 (initial true) _ Hnames eq_refl)
    as Hmain.
  pose proof (stringifyAll_hoists_single_line_names ast 0 (initial true)
                Hnames eq_refl) as Hroots.
  destruct (stringifyAll 0 ast (initial true)) as [[css1 ast'] p1].
  simpl in Hmain, Hroots.
  pose proof (stringifyAll_cursor (atRoots p1) 0 p1 _ Hroots Hmain) as Hflush.
  destruct (stringifyAll 0 (atRoots p1) p1) as [[css2 hoisted'] p2].
  simpl in *. rewrite Hflush, newlines_append. f_equal; f_equal; lia.
Qed.

Lemma cursor_follows_the_text_witness :
  forallb single_line_names two_line_comment = true
  ∧ location (final (toCss two_line_comment true))
    = Some (mkLocation (1 + newlines (css (toCss two_line_comment true))) 0).
Proof.
  assert (forallb single_line_names two_line_comment = true) as H1
    by reflexivity.
  split; [exact H1|].
  exact (cursor_follows_the_text two_line_comment H1).
Defined.

Lemma forallb_true {A} (l : list A) : forallb (λ _, true) l = true.
Proof. by induction l. Qed.

(** The set of seen selectors only grows. *)
Lemma stringifyAll_seen_grows nodes depth p :
  seenAtProperties p ⊆ seenAtProperties (stringifyAll depth nodes p).2.
Proof.
  apply (stringifyAll_invariant (λ _, true)
           (λ q, seenAtProperties p ⊆ seenAtProperties q)).
  - intros. apply forallb_true.
  - intros lines q. by rewrite seenAtProperties_advance.
  - intros selector q _ Hq. simpl. set_solver.
  - done.
  - apply forallb_true.
  - done.
Qed.

(** After a top-level rule with children whose selector starts with
    ['@property '] the selector is in the set, whether it printed or not. *)
Lemma property_rule_is_seen selector nodes mappings p :
  String.prefix "@property " selector = true →
  nodes ≠ [] →
  selector ∈ seenAtProperties (stringify 0 (Rule selector nodes mappings) p).2.
Proof.
  intros Hprefix Hnodes.
  destruct (decide (selector ∈ seenAtProperties p)) as [Hseen|Hfresh].
  - by rewrite (property_rule_seen selector Hprefix nodes mappings p).
  - destruct (stringifyAll 1 nodes
      (advance 1 (mkPrinter (atRoots p) ({[selector]} ∪ seenAtProperties p)
                    (location p)))) as [[inner nodes'] p2] eqn:Hinner.
    destruct (property_rule_fresh selector Hprefix nodes mappings p
                inner nodes' p2 Hnodes Hfresh Hinner) as [-> Hin].
    done.
Qed.

(** X12. At the top level, a rule with children whose selector starts with
    ['@property '] and has been the selector of such a rule earlier in the
    forest prints nothing, whatever stands between the two and whatever its
    own children are: the text and the final state of [toCss] are those of
    the forest without the later rule. *)
Theorem repeated_property_rule_prints_nothing
    selector before nodes mappings middle nodes2 mappings2 after track :
  String.prefix "@property " selector = true →
  nodes ≠ [] →
  nodes2 ≠ [] →
  css (toCss (before ++ Rule selector nodes mappings
                :: middle ++ Rule selector nodes2 mappings2 :: after) track)
  = css (toCss (before ++ Rule selector nodes mappings :: middle ++ after)
           track)
  ∧ final (toCss (before ++ Rule selector nodes mappings
                    :: middle ++ Rule selector nodes2 mappings2 :: after)
             track)
    = final (toCss (before ++ Rule selector nodes mappings :: middle ++ after)
               track).
Proof.
  intros Hprefix Hnodes Hnodes2. unfold toCss.
  rewrite !(stringifyAll_app 0 before).
  destruct (stringifyAll 0 before (initial track)) as [[css1 before'] p1].
  rewrite !stringifyAll_cons.
  pose proof (property_rule_is_seen selector nodes mappings p1 Hprefix Hnodes)
    as Hseen.
  destruct (stringify 0 (Rule selector nodes mappings) p1)
    as [[css2 first'] p2].
  rewrite !(stringifyAll_app 0 middle).
  pose proof (stringifyAll_seen_grows middle 0 p2) as Hgrows.
  destruct (stringifyAll 0 middle p2) as [[css3 middle'] p3].
  rewrite stringifyAll_cons.
  rewrite (property_rule_seen selector Hprefix nodes2 mappings2 p3 Hnodes2)
    by (apply Hgrows, Hseen).
  destruct (stringifyAll 0 after p3) as [[css4 after'] p4].
  simpl.
  by destruct (stringifyAll 0 (atRoots p4) p4) as [[css5 hoisted'] p5].
Qed.

Lemma repeated_property_rule_prints_nothing_witness :
  let selector := "@property --foo" in
  let first := [decl "syntax" "'*'"] in
  let second := [decl "inherits" "false"] in
  String.prefix "@property " selector = true
  ∧ first ≠ []
  ∧ second ≠ []
  ∧ css (toCss ([comment " x "] ++ Rule selector first []
                  :: [rule ".a" []] ++ Rule selector second [] :: [decl "top" "0"])
           true)
    = css (toCss ([comment " x "] ++ Rule selector first []
                    :: [rule ".a" []] ++ [decl "top" "0"]) true)
  ∧ final (toCss ([comment " x "] ++ Rule selector first []
                    :: [rule ".a" []] ++ Rule selector second []
                    :: [decl "top" "0"]) true)
    = final (toCss ([comment " x "] ++ Rule selector first []
                      :: [rule ".a" []] ++ [decl "top" "0"]) true).
Proof.
  intros selector first second.
  assert (String.prefix "@property " selector = true) as H1 by reflexivity.
  assert (first ≠ []) as H2 by discriminate.
  assert (second ≠ []) as H3 by discriminate.
  split; [exact H1|]. split; [exact H2|]. split; [exact H3|].
  exact (repeated_property_rule_prints_nothing selector [comment " x "] first []
           [rule ".a" []] second [] [decl "top" "0"] true H1 H2 H3).
Defined.

Lemma at_root_free_hoists_once node :
  at_root_free node = true → hoists_once node = true.
Proof.
  induction node as [selector nodes mappings IH| |] using AstNode_forall_ind;
    [|done..].
  simpl. intros [Hselector Hnodes]%andb_prop.
  destruct (bool_decide (selector = "@at-root")); [done|].
  clear Hselector.
  induction IH as [|child nodes Hchild _ IHnodes]; [done|].
  apply andb_prop in Hnodes as [Hnode Hnodes]. simpl.
  by rewrite (Hchild Hnode), (IHnodes Hnodes).
Qed.

Lemma forallb_at_root_free_hoists_once nodes :
  forallb at_root_free nodes = true → forallb hoists_once nodes = true.
Proof.
  induction nodes as [|child nodes IH]; [done|].
  simpl. intros [Hnode Hnodes]%andb_prop.
  by rewrite (at_root_free_hoists_once _ Hnode), (IH Hnodes).
Qed.

(** Printing trees without [@at-root] rules hoists nothing. *)
Lemma stringifyAll_at_root_free nodes depth p :
  forallb at_root_free nodes = true →
  atRoots (stringifyAll depth nodes p).2 = atRoots p.
Proof.
  intros Hfree.
  apply (stringifyAll_invariant at_root_free (λ q, atRoots q = atRoots p));
    [| | | |done..].
  - simpl. by intros selector children mappings [_ ?]%andb_prop.
  - intros lines q. by rewrite atRoots_advance.
  - done.
  - done.
Qed.

(** Where no [@at-root] rule is below another one, what is hoisted has no
    [@at-root] rule in it. *)
Lemma stringifyAll_hoists_at_root_free nodes depth p :
  forallb hoists_once nodes = true →
  forallb at_root_free (atRoots p) = true →
  forallb at_root_free (atRoots (stringifyAll depth nodes p).2) = true.
Proof.
  apply (stringifyAll_invariant hoists_once
           (λ p, forallb at_root_free (atRoots p) = true)).
  - intros selector children mappings. simpl.
    destruct (bool_decide (selector = "@at-root")); [|done].
    apply forallb_at_root_free_hoists_once.
  - intros lines q. by rewrite atRoots_advance.
  - done.
  - intros children mappings q Hchildren Hroots. simpl in *.
    by rewrite forallb_app, Hroots, Hchildren.
Qed.

(** X13. Where no [@at-root] rule stands below another one, printing the
    hoisted nodes hoists nothing more: the nodes collected when [toCss]
    returns are the ones that its final call of [stringifyAll] has printed,
    none is left over. *)
Theorem hoisted_nodes_are_all_printed ast track :
  forallb hoists_once ast = true →
  atRoots (final (toCss ast track))
  = atRoots (stringifyAll 0 ast (initial track)).2.
Proof.
  intros Honce. unfold toCss.
  pose proof (stringifyAll_hoists_at_root_free ast 0 (initial track) Honce
                eq_refl) as Hfree.
  destruct (stringifyAll 0 ast (initial track)) as [[css1 ast'] p1].
  pose proof (stringifyAll_at_root_free (atRoots p1) 0 p1 Hfree) as Hflush.
  by destruct (stringifyAll 0 (atRoots p1) p1) as [[css2 hoisted'] p2].
Qed.

Lemma hoisted_nodes_are_all_printed_witness :
  forallb hoists_once hoisted_once = true
  ∧ atRoots (final (toCss hoisted_once true))
    = atRoots (stringifyAll 0 hoisted_once (initial true)).2.
Proof.
  assert (forallb hoists_once hoisted_once = true) as H1 by reflexivity.
  split; [exact H1|].
  exact (hoisted_nodes_are_all_printed hoisted_once true H1).
Defined.

Lemma ends_with_newline_prepend start text :
  ends_with_newline text → ends_with_newline (start +:+ text).
Proof.
  intros [s ->]. exists (start +:+ s). by rewrite append_assoc.
Qed.

Lemma ends_with_newline_end text : ends_with_newline (text +:+ newline).
Proof. by exists text. Qed.

Lemma whole_lines_append text text' :
  whole_lines text → whole_lines text' → whole_lines (text +:+ text').
Proof.
  intros Htext [->|Hends].
  - by rewrite append_empty_r.
  - right. by apply ends_with_newline_prepend.
Qed.

Ltac solve_ends_with_newline :=
  repeat first [apply ends_with_newline_end|apply ends_with_newline_prepend].

Lemma stringify_whole_lines node :
  ∀ depth p, whole_lines (stringify depth node p).1.1.
Proof.
  induction node as [selector nodes mappings IH|property value important mappings|
                     value mappings] using AstNode_forall_ind;
    intros depth p.
  - assert (∀ depth p, whole_lines (stringifyAll depth nodes p).1.1) as Hall.
    { clear depth p.
      induction IH as [|child nodes Hchild _ IHnodes]; intros depth p;
        [by left|].
      rewrite stringifyAll_cons.
      specialize (Hchild depth p).
      destruct (stringify depth child p) as [[css child'] p1].
      specialize (IHnodes depth p1).
      destruct (stringifyAll depth nodes p1) as [[css' nodes'] p2].
      by apply whole_lines_append. }
    rewrite stringify_rule. cbv zeta.
    destruct (bool_decide (selector = "@at-root")); [by left|].
    destruct (bool_decide (selector = "@tailwind utilities")).
    { specialize (Hall depth p).
      by destruct (stringifyAll depth nodes p) as [[css nodes'] p']. }
    destruct (at_rule selector && bool_decide (length nodes = 0));
      [right; simpl; solve_ends_with_newline|].
    destruct (at_rule selector && String.prefix "@property " selector
              && bool_decide (depth = 0)
              && bool_decide (selector ∈ seenAtProperties p)); [by left|].
    match goal with |- context [stringifyAll ?d ?n ?q] =>
      destruct (stringifyAll d n q) as [[inner nodes'] p2] end.
    right. simpl. solve_ends_with_newline.
  - simpl. repeat case_match; try (by left); right; simpl; solve_ends_with_newline.
  - right. simpl. solve_ends_with_newline.
Qed.

Lemma stringifyAll_whole_lines nodes :
  ∀ depth p, whole_lines (stringifyAll depth nodes p).1.1.
Proof.
  induction nodes as [|child nodes IH]; intros depth p; [by left|].
  rewrite stringifyAll_cons.
  pose proof (stringify_whole_lines child depth p) as Hchild.
  destruct (stringify depth child p) as [[css child'] p1].
  specialize (IH depth p1).
  destruct (stringifyAll depth nodes p1) as [[css' nodes'] p2].
  by apply whole_lines_append.
Qed.

(** X14. The text of [toCss] is made of whole lines: it is empty or it ends
    with a newline, and so is the text of every node and of every list of
    nodes, at every depth and in every state. *)
Theorem toCss_prints_whole_lines :
  (∀ ast track, whole_lines (css (toCss ast track)))
  ∧ (∀ depth node p, whole_lines (stringify depth node p).1.1)
  ∧ (∀ depth nodes p, whole_lines (stringifyAll depth nodes p).1.1).
Proof.
  split; [|split].
  - intros ast track. unfold toCss.
    pose proof (stringifyAll_whole_lines ast 0 (initial track)) as Hmain.
    destruct (stringifyAll 0 ast (initial track)) as [[css1 ast'] p1].
    pose proof (stringifyAll_whole_lines (atRoots p1) 0 p1) as Hflush.
    destruct (stringifyAll 0 (atRoots p1) p1) as [[css2 hoisted'] p2].
    by apply whole_lines_append.
  - intros depth node p. apply stringify_whole_lines.
  - intros depth nodes p. apply stringifyAll_whole_lines.
Qed.

(** * The walker on the store of objects *)

Section ObjectsWalker.
Context {St : Type}.
Variable visit : St → Objects.Store → option Objects.NodeRef → Objects.Call St.

Lemma walk_from_S fuel h ast i s :
  Objects.walk_from visit (S fuel) h ast i s =
  match Objects.arrays h !! ast with
  | None => Some (Objects.mkWalked h s Objects.Throw)
  | Some elements =>
    if bool_decide (i < Z.of_nat (length elements))%Z then
      let node := Objects.element elements i in
      let '(h, i, s, result) := Objects.run ast i (visit s h node) in
      match result with
      | None => Some (Objects.mkWalked h s Objects.Throw)
      | Some status =>
        match default Continue status with
        | Stop => Some (Objects.mkWalked h s Objects.Normal)
        | Skip => Objects.walk_from visit fuel h ast (i + 1) s
        | Continue =>
          match node ≫= (Objects.objects h !!.) with
          | None => Some (Objects.mkWalked h s Objects.Throw)
          | Some (Objects.RuleObject _ nodes _) =>
            inner ← Objects.walk_from visit fuel h nodes 0 s;
            match Objects.completion inner with
            | Objects.Throw => Some inner
            | Objects.Normal =>
              Objects.walk_from visit fuel (Objects.store_after inner) ast
                (i + 1) (Objects.state_after inner)
            end
          | Some _ => Objects.walk_from visit fuel h ast (i + 1) s
          end
        end
      end
    else Some (Objects.mkWalked h s Objects.Normal)
  end.
Proof. reflexivity. Qed.

(** More fuel does not change a result. *)
Lemma objects_walk_from_mono fuel fuel' h ast i s r :
  fuel ≤ fuel' →
  Objects.walk_from visit fuel h ast i s = Some r →
  Objects.walk_from visit fuel' h ast i s = Some r.
Proof.
  revert fuel' h ast i s r.
  induction fuel as [|fuel IH]; intros fuel' h ast i s r Hle Hrun; [done|].
  destruct fuel' as [|fuel']; [lia|].
  rewrite walk_from_S in *.
  destruct (Objects.arrays h !! ast) as [elements|]; [|done].
  case_bool_decide; [|done]. cbv zeta in *.
  destruct (Objects.run ast i (visit s h (Objects.element elements i)))
    as [[[h1 i1] s1] [status|]]; [|done].
  destruct (default Continue status); [|apply IH; [lia|done]|done].
  destruct (Objects.element elements i ≫= (Objects.objects h1 !!.))
    as [[selector nodes mappings| |]|]; try done;
    try (apply IH; [lia|done]).
  destruct (Objects.walk_from visit fuel h1 nodes 0 s1) as [inner|] eqn:Hinner;
    [|done].
  rewrite (IH fuel' _ _ _ _ _ ltac:(lia) Hinner). simpl in *.
  destruct (Objects.completion inner); [|done].
  apply IH; [lia|done].
Qed.

Lemma objects_walk_from_fuel_pos fuel h ast i s r :
  Objects.walk_from visit fuel h ast i s = Some r → 0 < fuel.
Proof. destruct fuel; [done|lia]. Qed.

(** At the end of the array the loop is over. *)
Lemma objects_walk_from_end fuel h ast elements s :
  Objects.arrays h !! ast = Some elements →
  Objects.walk_from visit (S fuel) h ast (Z.of_nat (length elements)) s
  = Some (Objects.mkWalked h s Objects.Normal).
Proof.
  intros Hast. rewrite walk_from_S, Hast.
  by rewrite bool_decide_eq_false_2 by lia.
Qed.
End ObjectsWalker.

(** The recording visitor does what the visitor does. *)
Lemma run_recorded {St} ast i log (c : Objects.Call St) :
  Objects.run ast i (Objects.recorded log c) =
  let '(h, i', s, result) := Objects.run ast i c in (h, i', (s, log), result).
Proof.
  revert i. induction c as [h s status|h s|h newNode next IH]; intros i;
    [done..|].
  simpl. apply IH.
Qed.

Lemma run_recording {St}
    (visit : St → Objects.Store → option Objects.NodeRef → Objects.Call St)
    ast i s log h node :
  Objects.run ast i (Objects.recording visit (s, log) h node) =
  let '(h', i', s', result) := Objects.run ast i (visit s h node) in
  (h', i', (s', log ++ [node]), result).
Proof. apply run_recorded. Qed.

Section ObjectsRecording.
Context {St : Type}.
Variable visit : St → Objects.Store → option Objects.NodeRef → Objects.Call St.

(** The result of a walk with the recording visitor, from the result of the
    walk with the visitor itself and the list recorded from [[]]. *)
Lemma walk_recording fuel :
  ∀ h ast i s log,
    Objects.walk_from (Objects.recording visit) fuel h ast i (s, log) =
    r ← Objects.walk_from (Objects.recording visit) fuel h ast i (s, []);
    Some (Objects.mkWalked (Objects.store_after r)
            ((Objects.state_after r).1, log ++ (Objects.state_after r).2)
            (Objects.completion r)).
Proof.
  induction fuel as [|fuel IH]; intros h ast i s log; [done|].
  rewrite !walk_from_S.
  destruct (Objects.arrays h !! ast) as [elements|];
    [|simpl; by rewrite app_nil_r].
  case_bool_decide; [|simpl; by rewrite app_nil_r]. cbv zeta.
  rewrite !run_recording.
  destruct (Objects.run ast i (visit s h (Objects.element elements i)))
    as [[[h1 i1] s1] [status|]]; [|done].
  rewrite app_nil_l.
  assert (∀ a j,
    Objects.walk_from (Objects.recording visit) fuel h1 a j
      (s1, log ++ [Objects.element elements i]) =
    r ← Objects.walk_from (Objects.recording visit) fuel h1 a j
          (s1, [Objects.element elements i]);
    Some (Objects.mkWalked (Objects.store_after r)
            ((Objects.state_after r).1, log ++ (Objects.state_after r).2)
            (Objects.completion r))) as Hnext.
  { intros a j. rewrite (IH _ _ _ _ (log ++ _)), (IH _ _ _ _ [_]).
    destruct (Objects.walk_from _ fuel h1 a j (s1, [])) as [r|]; [|done].
    simpl. by rewrite <-?app_assoc. }
  destruct (default Continue status); [|apply Hnext|done].
  destruct (Objects.element elements i ≫= (Objects.objects h1 !!.))
    as [[selector nodes mappings| |]|]; try done; try apply Hnext.
  rewrite Hnext.
  destruct (Objects.walk_from _ fuel h1 nodes 0 (s1, [_])) as [inner|];
    [|done].
  simpl. destruct (Objects.completion inner) eqn:Hinner.
  2:{ simpl. by rewrite Hinner. }
  destruct (Objects.state_after inner) as [s2 log2] eqn:Hstate. simpl.
  rewrite (IH _ _ _ _ (log ++ log2)), (IH _ _ _ _ log2).
  destruct (Objects.walk_from _ fuel _ ast (i1 + 1) (s2, [])) as [r|];
    [|done].
  simpl. by rewrite <-?app_assoc.
Qed.

(** And the walk with the visitor itself is the walk with the recording
    visitor, the list left out. *)
Lemma walk_recorded fuel :
  ∀ h ast i s log,
    Objects.walk_from visit fuel h ast i s =
    r ← Objects.walk_from (Objects.recording visit) fuel h ast i (s, log);
    Some (Objects.mkWalked (Objects.store_after r) (Objects.state_after r).1
            (Objects.completion r)).
Proof.
  induction fuel as [|fuel IH]; intros h ast i s log; [done|].
  rewrite !walk_from_S.
  destruct (Objects.arrays h !! ast) as [elements|]; [|done].
  case_bool_decide; [|done]. cbv zeta.
  rewrite !run_recording.
  destruct (Objects.run ast i (visit s h (Objects.element elements i)))
    as [[[h1 i1] s1] [status|]]; [|done].
  destruct (default Continue status); [|apply IH|done].
  destruct (Objects.element elements i ≫= (Objects.objects h1 !!.))
    as [[selector nodes mappings| |]|]; try done; try apply IH.
  rewrite (IH _ _ _ _ (log ++ [Objects.element elements i])).
  destruct (Objects.walk_from _ fuel h1 nodes 0 (s1, _)) as [inner|];
    [|done].
  simpl. destruct (Objects.completion inner) eqn:Hinner;
    [|simpl; by rewrite Hinner].
  destruct (Objects.state_after inner) as [s2 log2] eqn:Hstate. simpl.
  apply IH.
Qed.
End ObjectsRecording.

(** ** Trees in the store *)

Lemma objects_count_all_cons t forest :
  Objects.count_all (t :: forest) = Objects.count t + Objects.count_all forest.
Proof. done. Qed.

Lemma objects_count_children t :
  Objects.count t = S (Objects.count_all (Objects.children t)).
Proof. by destruct t. Qed.


Lemma nodes_of_all_cons t forest :
  Objects.nodes_of_all (t :: forest)
  = Objects.nodes_of t ++ Objects.nodes_of_all forest.
Proof. done. Qed.


Lemma same_structure_elim h h' :
  Objects.same_structure h h' = true →
  Objects.arrays h' = Objects.arrays h
  ∧ ∀ node, Objects.child_array <$> Objects.objects h' !! node
            = Objects.child_array <$> Objects.objects h !! node.
Proof.
  unfold Objects.same_structure.
  intros [Harrays Hobjects]%andb_prop.
  apply bool_decide_eq_true in Harrays, Hobjects.
  split; [done|]. intros node.
  by rewrite <-!lookup_fmap, Hobjects.
Qed.

Lemma same_structure_refl h : Objects.same_structure h h = true.
Proof.
  unfold Objects.same_structure. by rewrite !bool_decide_eq_true_2.
Qed.

Lemma same_structure_trans h1 h2 h3 :
  Objects.same_structure h1 h2 = true →
  Objects.same_structure h2 h3 = true →
  Objects.same_structure h1 h3 = true.
Proof.
  unfold Objects.same_structure.
  intros [Ha1 Ho1]%andb_prop [Ha2 Ho2]%andb_prop.
  apply bool_decide_eq_true in Ha1, Ho1, Ha2, Ho2.
  rewrite !bool_decide_eq_true_2; [done|congruence|congruence].
Qed.

(** Whether a tree is in the store depends on the arrays of the tree and
    on which of its nodes are rules with which child array. *)
Lemma in_store_agree h h' t :
  (∀ a, a ∈ Objects.arrays_of t → Objects.arrays h' !! a = Objects.arrays h !! a) →
  (∀ node, node ∈ Objects.nodes_of t →
     Objects.child_array <$> Objects.objects h' !! node
     = Objects.child_array <$> Objects.objects h !! node) →
  Objects.in_store h' t = Objects.in_store h t.
Proof.
  induction t as [node|node nodes children IH] using Objects.Shape_forall_ind;
    intros Harrays Hobjects.
  - simpl. rewrite Hobjects; [done|]. simpl. left.
  - simpl. rewrite Hobjects by (simpl; left).
    rewrite Harrays by (simpl; left). f_equal.
    assert (∀ a, a ∈ flat_map Objects.arrays_of children →
              Objects.arrays h' !! a = Objects.arrays h !! a) as Ha
      by (intros a Ha; apply Harrays; by right).
    assert (∀ n, n ∈ flat_map Objects.nodes_of children →
              Objects.child_array <$> Objects.objects h' !! n
              = Objects.child_array <$> Objects.objects h !! n) as Hn
      by (intros n Hn; apply Hobjects; by right).
    clear Harrays Hobjects.
    induction IH as [|child children Hchild _ IHchildren]; [done|].
    simpl in *. rewrite Hchild, IHchildren; [done|..].
    + intros a Hin. apply Ha, elem_of_app. by right.
    + intros n Hin. apply Hn, elem_of_app. by right.
    + intros a Hin. apply Ha, elem_of_app. by left.
    + intros n Hin. apply Hn, elem_of_app. by left.
Qed.

Lemma in_store_all_agree h h' forest :
  (∀ a, a ∈ Objects.arrays_of_all forest →
     Objects.arrays h' !! a = Objects.arrays h !! a) →
  (∀ node, node ∈ Objects.nodes_of_all forest →
     Objects.child_array <$> Objects.objects h' !! node
     = Objects.child_array <$> Objects.objects h !! node) →
  forallb (Objects.in_store h') forest = forallb (Objects.in_store h) forest.
Proof.
  induction forest as [|t forest IH]; intros Harrays Hobjects; [done|].
  simpl. rewrite (in_store_agree h h' t), IH; [done|..].
  - intros a Ha. apply Harrays. simpl. apply elem_of_app. by right.
  - intros n Hn. apply Hobjects. simpl. apply elem_of_app. by right.
  - intros a Ha. apply Harrays. simpl. apply elem_of_app. by left.
  - intros n Hn. apply Hobjects. simpl. apply elem_of_app. by left.
Qed.

Lemma in_store_same_structure h h' forest :
  Objects.same_structure h h' = true →
  forallb (Objects.in_store h') forest = forallb (Objects.in_store h) forest.
Proof.
  intros [Harrays Hobjects]%same_structure_elim.
  apply in_store_all_agree; [intros; by rewrite Harrays|intros; apply Hobjects].
Qed.

(** ** The walk of a tree that keeps its structure *)

Section ObjectsTraversal.
Context {St : Type}.
Variable visit : St → Objects.Store → option Objects.NodeRef → Objects.Call St.

Lemma traverse_all_cons t ts h s :
  Objects.traverse_all visit (t :: ts) h s =
  first ← Objects.traverse visit h s t;
  if Objects.stopped first then Some first
  else
    rest ← Objects.traverse_all visit ts (Objects.store_then first)
              (Objects.state_then first);
    Some (Objects.mkTraversed (Objects.store_then rest)
            (Objects.state_then rest) (Objects.stopped rest)
            (Objects.route first ++ Objects.route rest)).
Proof. done. Qed.

Lemma traverse_eq h s t :
  Objects.traverse visit h s t =
  match visit s h (Some (Objects.root t)) with
  | Objects.Returns h1 s1 status =>
    if Objects.same_structure h h1 then
      match default Continue status with
      | Stop => Some (Objects.mkTraversed h1 s1 true [Objects.root t])
      | Skip => Some (Objects.mkTraversed h1 s1 false [Objects.root t])
      | Continue =>
        below ← Objects.traverse_all visit (Objects.children t) h1 s1;
        Some (Objects.mkTraversed (Objects.store_then below)
                (Objects.state_then below) false
                (Objects.root t :: Objects.route below))
      end
    else None
  | _ => None
  end.
Proof.
  destruct t as [node|node nodes children]; simpl;
    destruct (visit s h (Some node)) as [h1 s1 status| |]; try done;
    destruct (Objects.same_structure h h1); try done;
    by destruct (default Continue status).
Qed.

(** A traversal keeps the structure of the store. *)
Lemma traverse_structure t :
  ∀ h s tr,
    Objects.traverse visit h s t = Some tr →
    Objects.same_structure h (Objects.store_then tr) = true.
Proof.
  induction t as [node|node nodes children IH] using Objects.Shape_forall_ind;
    intros h s tr; rewrite traverse_eq;
    destruct (visit s h (Some _)) as [h1 s1 status| |]; try done;
    destruct (Objects.same_structure h h1) eqn:Hsame; try done;
    destruct (default Continue status); simpl; intros Htr;
    try (by simplify_eq).
  assert (∀ h s tr,
    Objects.traverse_all visit children h s = Some tr →
    Objects.same_structure h (Objects.store_then tr) = true) as Hall.
  { clear h s tr h1 s1 Hsame Htr.
    induction IH as [|child children Hchild _ IHchildren]; intros h s tr.
    - simpl. intros [= <-]. apply same_structure_refl.
    - rewrite traverse_all_cons.
      destruct (Objects.traverse visit h s child) as [first|] eqn:Hfirst;
        [|done].
      apply Hchild in Hfirst. simpl.
      destruct (Objects.stopped first); [by intros [= <-]|].
      destruct (Objects.traverse_all visit children _ _) as [rest|] eqn:Hrest;
        [|done].
      apply IHchildren in Hrest. simpl. intros [= <-]. simpl.
      by eapply same_structure_trans. }
  destruct (Objects.traverse_all visit children h1 s1) as [below|] eqn:Hbelow;
    [|done].
  apply Hall in Hbelow. simpl in Htr. simplify_eq. simpl.
  by eapply same_structure_trans.
Qed.

Lemma traverse_all_structure forest :
  ∀ h s tr,
    Objects.traverse_all visit forest h s = Some tr →
    Objects.same_structure h (Objects.store_then tr) = true.
Proof.
  induction forest as [|t forest IH]; intros h s tr.
  - simpl. intros [= <-]. apply same_structure_refl.
  - rewrite traverse_all_cons.
    destruct (Objects.traverse visit h s t) as [first|] eqn:Hfirst; [|done].
    apply traverse_structure in Hfirst. simpl.
    destruct (Objects.stopped first); [by intros [= <-]|].
    destruct (Objects.traverse_all visit forest _ _) as [rest|] eqn:Hrest;
      [|done].
    apply IH in Hrest. simpl. intros [= <-]. simpl.
    by eapply same_structure_trans.
Qed.

Lemma element_here (done rest : list Objects.NodeRef) node :
  Objects.element (done ++ node :: rest) (Z.of_nat (length done)) = Some node.
Proof.
  unfold Objects.element.
  destruct (Z.ltb_spec (Z.of_nat (length done)) 0) as [?|_]; [lia|].
  rewrite Nat2Z.id. by rewrite lookup_app_r, Nat.sub_diag by lia.
Qed.

(** The loop of [walk] over a stretch of an array whose trees are in the
    store does what the traversal of these trees does: it ends there when
    the traversal is stopped, and goes on behind the stretch when it is
    not. *)
Lemma walk_from_traverse n :
  ∀ region h ast done rest s tr,
    Objects.count_all region ≤ n →
    Objects.arrays h !! ast
      = Some (done ++ (Objects.root <$> region) ++ rest) →
    forallb (Objects.in_store h) region = true →
    Objects.traverse_all visit region h s = Some tr →
    if Objects.stopped tr
    then ∀ fuel,
      Objects.count_all region < fuel →
      Objects.walk_from visit fuel h ast (Z.of_nat (length done)) s
      = Some (Objects.mkWalked (Objects.store_then tr)
                (Objects.state_then tr) Objects.Normal)
    else ∀ fuel r,
      Objects.walk_from visit fuel (Objects.store_then tr) ast
        (Z.of_nat (length done + length region)) (Objects.state_then tr)
      = Some r →
      Objects.walk_from visit (fuel + Objects.count_all region) h ast
        (Z.of_nat (length done)) s = Some r.
Proof.
  induction n as [|n IH]; intros region h ast done rest s tr Hn Hast Hin Htr.
  { destruct region as [|t region];
      [|rewrite objects_count_all_cons, objects_count_children in Hn; lia].
    simpl in Htr. simplify_eq. simpl. intros fuel r.
    by rewrite !Nat.add_0_r. }
  destruct region as [|t region].
  { simpl in Htr. simplify_eq. simpl. intros fuel r.
    by rewrite !Nat.add_0_r. }
  rewrite objects_count_all_cons, objects_count_children in Hn.
  rewrite traverse_all_cons, traverse_eq in Htr.
  simpl in Hin. apply andb_prop in Hin as [Ht Hregion].
  destruct (visit s h (Some (Objects.root t))) as [h1 s1 status| |] eqn:Hvisit;
    try done.
  destruct (Objects.same_structure h h1) eqn:Hsame; [|done].
  pose proof (same_structure_elim _ _ Hsame) as [Harrays Hobjects].
  (* one iteration of the loop *)
  assert (∀ fuel,
    Objects.walk_from visit (S fuel) h ast (Z.of_nat (length done)) s =
    match default Continue status with
    | Stop => Some (Objects.mkWalked h1 s1 Objects.Normal)
    | Skip =>
      Objects.walk_from visit fuel h1 ast (Z.of_nat (length done) + 1) s1
    | Continue =>
      match t with
      | Objects.Leaf _ =>
        Objects.walk_from visit fuel h1 ast (Z.of_nat (length done) + 1) s1
      | Objects.Branch _ nodes _ =>
        inner ← Objects.walk_from visit fuel h1 nodes 0 s1;
        match Objects.completion inner with
        | Objects.Throw => Some inner
        | Objects.Normal =>
          Objects.walk_from visit fuel (Objects.store_after inner) ast
            (Z.of_nat (length done) + 1) (Objects.state_after inner)
        end
      end
    end) as Hstep.
  { intros fuel. rewrite walk_from_S, Hast.
    rewrite bool_decide_eq_true_2
      by (rewrite !length_app, length_fmap; simpl; lia).
    cbv zeta. change (Objects.root <$> t :: region)
      with (Objects.root t :: (Objects.root <$> region)).
    rewrite <-app_comm_cons, element_here, Hvisit. simpl.
    destruct (default Continue status); try done.
    destruct t as [node|node nodes children]; simpl in *.
    - apply bool_decide_eq_true in Ht. rewrite <-Hobjects in Ht.
      destruct (Objects.objects h1 !! node) as [[]|]; by simplify_eq/=.
    - apply andb_prop in Ht as [[Ht _]%andb_prop _].
      apply bool_decide_eq_true in Ht. rewrite <-Hobjects in Ht.
      destruct (Objects.objects h1 !! node) as [[]|]; by simplify_eq/=. }
  (* the array and the trees behind it after the visit *)
  assert (Objects.arrays h1 !! ast
          = Some ((done ++ [Objects.root t]) ++ (Objects.root <$> region)
                    ++ rest)) as Hast1.
  { rewrite Harrays, Hast, <-app_assoc. done. }
  assert (Z.of_nat (length done) + 1
          = Z.of_nat (length (done ++ [Objects.root t])))%Z as Hnext
    by (rewrite length_app; simpl; lia).
  (* what follows the tree *)
  assert (∀ h2 s2 tr',
    Objects.same_structure h1 h2 = true →
    Objects.traverse_all visit region h2 s2 = Some tr' →
    if Objects.stopped tr'
    then ∀ fuel,
      Objects.count_all region < fuel →
      Objects.walk_from visit fuel h2 ast (Z.of_nat (length done) + 1) s2
      = Some (Objects.mkWalked (Objects.store_then tr')
                (Objects.state_then tr') Objects.Normal)
    else ∀ fuel r,
      Objects.walk_from visit fuel (Objects.store_then tr') ast
        (Z.of_nat (length done + length (t :: region)))
        (Objects.state_then tr')
      = Some r →
      Objects.walk_from visit (fuel + Objects.count_all region) h2 ast
        (Z.of_nat (length done) + 1) s2 = Some r) as Hrest.
  { intros h2 s2 tr' Hsame2 Htr'.
    pose proof (same_structure_elim _ _ Hsame2) as [Harrays2 _].
    pose proof (IH region h2 ast (done ++ [Objects.root t]) rest s2 tr'
                  ltac:(lia)) as Hgo.
    rewrite Harrays2, <-Hnext in Hgo. specialize (Hgo Hast1).
    rewrite (in_store_same_structure h h2) in Hgo
      by (by eapply same_structure_trans).
    specialize (Hgo Hregion Htr').
    replace (length (done ++ [Objects.root t]) + length region)
      with (length done + length (t :: region)) in Hgo
      by (rewrite length_app; simpl; lia).
    exact Hgo. }
  destruct (default Continue status) eqn:Hstatus.
  - (* Continue *)
    destruct (Objects.traverse_all visit (Objects.children t) h1 s1)
      as [below|] eqn:Hbelow; [|done].
    pose proof (traverse_all_structure _ _ _ _ Hbelow) as Hsame_below.
    simpl in Htr.
    destruct (Objects.traverse_all visit region (Objects.store_then below)
                (Objects.state_then below)) as [tr'|] eqn:Htr'; [|done].
    simpl in Htr. simplify_eq. simpl.
    specialize (Hrest _ _ _ Hsame_below Htr').
    (* the walk of the children *)
    assert (∀ nodes, t = Objects.Branch (Objects.root t) nodes
                           (Objects.children t) →
      ∀ fuel, Objects.count_all (Objects.children t) < fuel →
        Objects.walk_from visit fuel h1 nodes 0 s1
        = Some (Objects.mkWalked (Objects.store_then below)
                  (Objects.state_then below) Objects.Normal)) as Hinner.
    { intros nodes Hbranch fuel Hfuel. rewrite Hbranch in Ht. simpl in Ht.
      apply andb_prop in Ht as [[_ Hnodes%bool_decide_eq_true]%andb_prop Hkids].
      pose proof (IH (Objects.children t) h1 nodes [] [] s1 below
                    ltac:(lia)) as Hgo.
      rewrite app_nil_r, Harrays in Hgo. specialize (Hgo Hnodes).
      rewrite (in_store_same_structure h h1) in Hgo by done.
      specialize (Hgo Hkids Hbelow). simpl in Hgo.
      destruct (Objects.stopped below); [by apply Hgo|].
      eapply objects_walk_from_mono;
        [|apply (Hgo 1); rewrite <-(length_fmap Objects.root);
          apply objects_walk_from_end].
      - lia.
      - pose proof (same_structure_elim _ _ Hsame_below) as [-> _].
        by rewrite Harrays. }
    destruct (Objects.stopped tr') eqn:Hstopped.
    + intros fuel Hfuel. destruct fuel as [|fuel]; [lia|].
      rewrite Hstep. rewrite objects_count_all_cons, objects_count_children in Hfuel.
      destruct t as [node|node nodes children]; simpl in *.
      * simplify_eq. apply Hrest. lia.
      * rewrite (Hinner nodes eq_refl) by lia. simpl. apply Hrest. lia.
    + intros fuel r Hr.
      rewrite objects_count_all_cons, objects_count_children.
      replace (fuel + (S (Objects.count_all (Objects.children t))
                       + Objects.count_all region))
        with (S (fuel + Objects.count_all (Objects.children t)
                 + Objects.count_all region)) by lia.
      rewrite Hstep.
      pose proof (Hrest _ _ Hr) as Hgo.
      eapply (objects_walk_from_mono _ _
                (fuel + Objects.count_all (Objects.children t)
                 + Objects.count_all region)) in Hgo; [|lia].
      pose proof (objects_walk_from_fuel_pos _ _ _ _ _ _ _ Hr) as Hpos.
      destruct t as [node|node nodes children]; simpl in *.
      * by simplify_eq.
      * rewrite (Hinner nodes eq_refl) by lia. simpl. exact Hgo.
  - (* Skip *)
    simpl in Htr.
    destruct (Objects.traverse_all visit region h1 s1) as [tr'|] eqn:Htr';
      [|done].
    simpl in Htr. simplify_eq. simpl.
    specialize (Hrest _ _ _ (same_structure_refl _) Htr').
    destruct (Objects.stopped tr') eqn:Hstopped.
    + intros fuel Hfuel. destruct fuel as [|fuel]; [lia|].
      rewrite Hstep. apply Hrest.
      rewrite objects_count_all_cons, objects_count_children in Hfuel. lia.
    + intros fuel r Hr.
      rewrite objects_count_all_cons, objects_count_children.
      replace (fuel + (S (Objects.count_all (Objects.children t))
                       + Objects.count_all region))
        with (S (fuel + Objects.count_all (Objects.children t)
                 + Objects.count_all region)) by lia.
      rewrite Hstep.
      eapply objects_walk_from_mono; [|by apply Hrest]. lia.
  - (* Stop *)
    simpl in Htr. simplify_eq. simpl.
    intros fuel Hfuel. destruct fuel as [|fuel]; [lia|].
    by rewrite Hstep.
Qed.
End ObjectsTraversal.

Section ObjectsTraversalRecorded.
Context {St : Type}.
Variable visit : St → Objects.Store → option Objects.NodeRef → Objects.Call St.

(** The traversal with the recording visitor records the route. *)
Lemma traverse_recording t :
  ∀ h s log,
    Objects.traverse (Objects.recording visit) h (s, log) t =
    tr ← Objects.traverse visit h s t;
    Some (Objects.mkTraversed (Objects.store_then tr)
            (Objects.state_then tr, log ++ (Some <$> Objects.route tr))
            (Objects.stopped tr) (Objects.route tr)).
Proof.
  induction t as [node|node nodes children IH] using Objects.Shape_forall_ind;
    intros h s log; rewrite !traverse_eq; unfold Objects.recording; simpl;
    destruct (visit s h (Some node)) as [h1 s1 status| |]; try done; simpl;
    destruct (Objects.same_structure h h1); try done;
    destruct (default Continue status); try done.
  assert (∀ h s log,
    Objects.traverse_all (Objects.recording visit) children h (s, log) =
    tr ← Objects.traverse_all visit children h s;
    Some (Objects.mkTraversed (Objects.store_then tr)
            (Objects.state_then tr, log ++ (Some <$> Objects.route tr))
            (Objects.stopped tr) (Objects.route tr))) as Hall.
  { clear h s log h1 s1.
    induction IH as [|child children Hchild _ IHchildren]; intros h s log.
    - simpl. by rewrite app_nil_r.
    - rewrite !traverse_all_cons, Hchild.
      destruct (Objects.traverse visit h s child) as [first|]; [|done].
      simpl. destruct (Objects.stopped first) eqn:Hstopped; simpl;
        [by rewrite Hstopped|].
      rewrite IHchildren.
      destruct (Objects.traverse_all visit children _ _) as [rest|]; [|done].
      simpl. by rewrite fmap_app, app_assoc. }
  fold (Objects.recording visit). rewrite Hall.
  destruct (Objects.traverse_all visit children h1 s1) as [below|]; [|done].
  simpl. by rewrite <-app_assoc.
Qed.

Lemma traverse_all_recording forest :
  ∀ h s log,
    Objects.traverse_all (Objects.recording visit) forest h (s, log) =
    tr ← Objects.traverse_all visit forest h s;
    Some (Objects.mkTraversed (Objects.store_then tr)
            (Objects.state_then tr, log ++ (Some <$> Objects.route tr))
            (Objects.stopped tr) (Objects.route tr)).
Proof.
  induction forest as [|t forest IH]; intros h s log.
  - simpl. by rewrite app_nil_r.
  - rewrite !traverse_all_cons, traverse_recording.
    destruct (Objects.traverse visit h s t) as [first|]; [|done].
    simpl. destruct (Objects.stopped first) eqn:Hstopped; simpl;
        [by rewrite Hstopped|].
    rewrite IH.
    destruct (Objects.traverse_all visit forest _ _) as [rest|]; [|done].
    simpl. by rewrite fmap_app, app_assoc.
Qed.
End ObjectsTraversalRecorded.

Lemma holds_elim h ast forest :
  Objects.holds h ast forest = true →
  Objects.arrays h !! ast = Some (Objects.root <$> forest)
  ∧ forallb (Objects.in_store h) forest = true.
Proof.
  unfold Objects.holds. intros [Hast Hin]%andb_prop.
  by apply bool_decide_eq_true in Hast.
Qed.

(** The walk of a forest in the store is its traversal, for as long as the
    traversal is defined. *)
Lemma walk_traverse {St}
    (visit : St → Objects.Store → option Objects.NodeRef → Objects.Call St)
    h ast forest s tr fuel :
  Objects.holds h ast forest = true →
  Objects.traverse_all visit forest h s = Some tr →
  Objects.count_all forest < fuel →
  Objects.walk visit fuel h ast s
  = Some (Objects.mkWalked (Objects.store_then tr) (Objects.state_then tr)
            Objects.Normal).
Proof.
  intros [Hast Hin]%holds_elim Htr Hfuel.
  pose proof (walk_from_traverse visit _ forest h ast [] [] s tr
                (le_n _)) as Hgo.
  rewrite app_nil_r in Hgo. specialize (Hgo Hast Hin Htr).
  unfold Objects.walk.
  destruct (Objects.stopped tr); [by apply Hgo|].
  eapply objects_walk_from_mono; [|apply (Hgo 1)]; [lia|].
  change (length (@nil Objects.NodeRef) + length forest) with (length forest).
  rewrite <-(length_fmap Objects.root). apply objects_walk_from_end.
  pose proof (traverse_all_structure _ _ _ _ _ Htr) as Hsame.
  apply same_structure_elim in Hsame as [-> _]. exact Hast.
Qed.

(** ** The walker on the store: the properties of the design document *)

Section ObjectsContinues.
Context {St : Type}.
Variable visit : St → Objects.Store → option Objects.NodeRef → Objects.Call St.
Hypothesis Hnone : Objects.never_replaces visit.
Hypothesis Hcont : Objects.always_continues visit.
Hypothesis Hkeep : Objects.keeps_children visit.

Lemma visits_in_turn_app nodes1 nodes2 h s :
  Objects.visits_in_turn visit (nodes1 ++ nodes2) h s =
  Objects.visits_in_turn visit nodes2
    (Objects.visits_in_turn visit nodes1 h s).1
    (Objects.visits_in_turn visit nodes1 h s).2.
Proof.
  unfold Objects.visits_in_turn. rewrite foldl_app.
  by destruct (foldl _ (h, s) nodes1).
Qed.

(** Such a visitor is taken over every tree, in pre-order. *)
Lemma traverse_continues t :
  ∀ h s,
    Objects.traverse visit h s t =
    Some (Objects.mkTraversed
            (Objects.visits_in_turn visit (Objects.nodes_of t) h s).1
            (Objects.visits_in_turn visit (Objects.nodes_of t) h s).2
            false (Objects.nodes_of t)).
Proof using Hnone Hcont Hkeep.
  induction t as [node|node nodes children IH] using Objects.Shape_forall_ind;
    intros h s; rewrite traverse_eq;
    destruct (Hnone s h node) as (h1 & s1 & status & Hvisit); simpl;
    rewrite Hvisit, (Hkeep _ _ _ _ _ _ Hvisit), (Hcont _ _ _ _ _ _ Hvisit);
    unfold Objects.visits_in_turn; simpl; rewrite Hvisit; [done|].
  fold (Objects.visits_in_turn visit (flat_map Objects.nodes_of children) h1 s1).
  assert (∀ h s,
    Objects.traverse_all visit children h s =
    Some (Objects.mkTraversed
            (Objects.visits_in_turn visit (Objects.nodes_of_all children) h s).1
            (Objects.visits_in_turn visit (Objects.nodes_of_all children) h s).2
            false (Objects.nodes_of_all children))) as Hall.
  { clear h s h1 s1 status Hvisit.
    induction IH as [|child children Hchild _ IHchildren]; intros h s;
      [done|].
    rewrite nodes_of_all_cons, visits_in_turn_app.
    rewrite traverse_all_cons, Hchild. simpl. by rewrite IHchildren. }
  by rewrite Hall.
Qed.

Lemma traverse_all_continues forest :
  ∀ h s,
    Objects.traverse_all visit forest h s =
    Some (Objects.mkTraversed
            (Objects.visits_in_turn visit (Objects.nodes_of_all forest) h s).1
            (Objects.visits_in_turn visit (Objects.nodes_of_all forest) h s).2
            false (Objects.nodes_of_all forest)).
Proof using Hnone Hcont Hkeep.
  induction forest as [|t forest IH]; intros h s; [done|].
  rewrite nodes_of_all_cons, visits_in_turn_app.
  rewrite traverse_all_cons, traverse_continues. simpl. by rewrite IH.
Qed.
End ObjectsContinues.

Lemma length_nodes_of t : length (Objects.nodes_of t) = Objects.count t.
Proof.
  induction t as [node|node nodes children IH] using Objects.Shape_forall_ind;
    [done|].
  simpl. f_equal.
  induction IH as [|child children Hchild _ IHchildren]; [done|].
  simpl. by rewrite length_app, Hchild, IHchildren.
Qed.

Lemma length_nodes_of_all forest :
  length (Objects.nodes_of_all forest) = Objects.count_all forest.
Proof.
  induction forest as [|t forest IH]; [done|].
  rewrite nodes_of_all_cons, length_app, length_nodes_of, IH. done.
Qed.

(** C5, as stated, fails: [push_child] always returns [Continue] and never
    calls [replaceWith], and on the three nodes of [three_nodes] it is
    called five times, for it is called on the declaration it has pushed on
    the child list of each of the two rules: twice on one object. *)
Lemma pushed_children_are_visited :
  let ast := Objects.array_of three_nodes in
  let created :=
    Objects.allocate (Objects.DeclarationObject "color" (Some "red") false [])
      (Objects.store_of three_nodes) in
  let visit := Objects.push_child created.1 in
  Objects.always_continues visit
  ∧ Objects.never_replaces visit
  ∧ Objects.forest_at 3 created.2 ast = Some three_nodes
  ∧ count_all three_nodes = 3
  ∧ ∃ r,
      (∀ fuel, 4 ≤ fuel →
         Objects.walk (Objects.recording visit) fuel created.2 ast (tt, [])
         = Some r)
      ∧ Objects.completion r = Objects.Normal
      ∧ (Objects.state_after r).2 = [Some 1; Some 0; Some 3; Some 3; Some 2]
      ∧ length (Objects.state_after r).2 = 5
      ∧ Objects.forest_at 3 (Objects.store_after r) ast
        = Some [ rule ".a" [ rule ".b" [ decl "color" "red" ];
                             decl "color" "red" ];
                 comment " x " ].
Proof.
  intros ast created visit.
  split; [|split; [|split; [|split]]].
  - intros s h1 node h' s' status. unfold visit, Objects.push_child.
    destruct (Objects.objects h1 !! node) as [[]|]; by intros [= <- <- <-].
  - intros s h1 node. unfold visit, Objects.push_child.
    destruct (Objects.objects h1 !! node) as [[]|]; by eexists _, _, _.
  - vm_compute; reflexivity.
  - reflexivity.
  - destruct (Objects.walk (Objects.recording visit) 4 created.2 ast (tt, []))
      as [r|] eqn:Hrun; [|by vm_compute in Hrun].
    exists r. split.
    + intros fuel Hfuel. by apply (objects_walk_from_mono _ 4).
    + vm_compute in Hrun. injection Hrun as <-.
      repeat split; vm_compute; reflexivity.
Qed.

(** C5, amended.  A visitor that returns [Continue] or nothing, never calls
    [replaceWith] and leaves every child list as it is (it may edit the
    other fields of any object) is called exactly once on each of the N
    nodes of a forest, in depth-first pre-order: the walk returns for every
    fuel above N, the list that the recording visitor has kept is the
    pre-order list of the forest, and the store and the visitor's state are
    the ones that these N calls, one after the other, have made. *)
Theorem walk_visits_every_node_once {St}
    (visit : St → Objects.Store → option Objects.NodeRef → Objects.Call St) :
  Objects.always_continues visit →
  Objects.never_replaces visit →
  Objects.keeps_children visit →
  ∀ h ast forest s fuel,
    Objects.holds h ast forest = true →
    Objects.count_all forest < fuel →
    let calls := Objects.nodes_of_all forest in
    let after := Objects.visits_in_turn visit calls h s in
    Objects.walk (Objects.recording visit) fuel h ast (s, [])
    = Some (Objects.mkWalked after.1 (after.2, Some <$> calls) Objects.Normal)
    ∧ Objects.walk visit fuel h ast s
      = Some (Objects.mkWalked after.1 after.2 Objects.Normal)
    ∧ length calls = Objects.count_all forest.
Proof.
  intros Hcont Hnone Hkeep h ast forest s fuel Hholds Hfuel calls after.
  pose proof (traverse_all_continues visit Hnone Hcont Hkeep forest h s)
    as Htr.
  split; [|split].
  - erewrite walk_traverse; [|exact Hholds| |exact Hfuel].
    2:{ rewrite traverse_all_recording, Htr. simpl. reflexivity. }
    done.
  - erewrite walk_traverse; [|exact Hholds|exact Htr|exact Hfuel]. done.
  - apply length_nodes_of_all.
Qed.

Lemma walk_visits_every_node_once_witness :
  let ast := Objects.array_of ten_nodes in
  let h := Objects.store_of ten_nodes in
  let forest := Objects.shapes_at 3 h ast in
  let calls := Objects.nodes_of_all forest in
  Objects.always_continues Objects.count_calls
  ∧ Objects.never_replaces Objects.count_calls
  ∧ Objects.keeps_children Objects.count_calls
  ∧ Objects.holds h ast forest = true
  ∧ Objects.count_all forest < 11
  ∧ Objects.forest_at 3 h ast = Some ten_nodes
  ∧ Objects.visits_in_turn Objects.count_calls calls h 0 = (h, 10)
  ∧ (let after := Objects.visits_in_turn Objects.count_calls calls h 0 in
     Objects.walk (Objects.recording Objects.count_calls) 11 h ast (0, [])
     = Some (Objects.mkWalked after.1 (after.2, Some <$> calls)
               Objects.Normal)
     ∧ Objects.walk Objects.count_calls 11 h ast 0
       = Some (Objects.mkWalked after.1 after.2 Objects.Normal)
     ∧ length calls = Objects.count_all forest).
Proof.
  intros ast h forest calls.
  assert (Objects.always_continues Objects.count_calls) as H1
    by (by intros s h1 node h' s' status [= <- <- <-]).
  assert (Objects.never_replaces Objects.count_calls) as H2
    by (intros s h1 node; by eexists _, _, _).
  assert (Objects.keeps_children Objects.count_calls) as H3
    by (intros s h1 node h' s' status [= <- <- <-]; apply same_structure_refl).
  assert (Objects.holds h ast forest = true) as H4 by (vm_compute; reflexivity).
  assert (Objects.count_all forest < 11) as H5 by (vm_compute; lia).
  do 5 (split; [assumption|]).
  split; [vm_compute; reflexivity|]. split; [vm_compute; reflexivity|].
  exact (walk_visits_every_node_once Objects.count_calls H1 H2 H3 h ast forest
           0 11 H4 H5).
Defined.

(** X3. [Stop] ends the activation of [walk] that receives it, that is the
    call of [walk] on the array [ast] (the walk of a child list is such a
    call): when the visit of an element of [ast] says [Stop], the call
    returns at once.  The visitor has been called on what the traversal of
    the elements before it calls it on and then on that element, on no
    node below it and on no element behind it, and the store and the state
    are the ones this last visit has left. *)
Theorem stop_returns_from_the_activation {St}
    (visit : St → Objects.Store → option Objects.NodeRef → Objects.Call St)
    h ast before t after s tr h' s' fuel :
  Objects.holds h ast (before ++ t :: after) = true →
  Objects.traverse_all visit before h s = Some tr →
  Objects.stopped tr = false →
  visit (Objects.state_then tr) (Objects.store_then tr)
    (Some (Objects.root t)) = Objects.Returns h' s' (Some Stop) →
  Objects.count_all before + 1 < fuel →
  Objects.walk (Objects.recording visit) fuel h ast (s, [])
  = Some (Objects.mkWalked h'
            (s', Some <$> (Objects.route tr ++ [Objects.root t]))
            Objects.Normal).
Proof.
  intros [Hast Hin]%holds_elim Htr Hgo Hstop Hfuel.
  rewrite forallb_app in Hin. apply andb_prop in Hin as [Hbefore _].
  rewrite fmap_app in Hast.
  pose proof (traverse_all_structure _ _ _ _ _ Htr) as Hsame.
  apply same_structure_elim in Hsame as [Harrays _].
  assert (Objects.traverse_all (Objects.recording visit) before h (s, [])
          = Some (Objects.mkTraversed (Objects.store_then tr)
                    (Objects.state_then tr, Some <$> Objects.route tr)
                    false (Objects.route tr))) as Hrec
    by (by rewrite traverse_all_recording, Htr, <-Hgo).
  pose proof (walk_from_traverse (Objects.recording visit) _ before h ast []
                (Objects.root <$> t :: after) (s, []) _ (le_n _) Hast Hbefore
                Hrec) as Hwalk.
  simpl in Hwalk.
  eapply objects_walk_from_mono; [|apply (Hwalk 1)]; [lia|].
  rewrite walk_from_S, Harrays, Hast.
  rewrite bool_decide_eq_true_2
    by (rewrite length_app, !length_fmap; simpl; lia).
  cbv zeta. rewrite <-(length_fmap Objects.root before).
  change (Objects.root <$> t :: after)
    with (Objects.root t :: (Objects.root <$> after)).
  rewrite element_here, run_recording, Hstop. simpl.
  by rewrite fmap_app.
Qed.

Lemma stop_returns_from_the_activation_witness :
  let ast := Objects.array_of ten_flat in
  let h := Objects.store_of ten_flat in
  let before := [Objects.Leaf 0; Objects.Leaf 1] in
  let t := Objects.Leaf 2 in
  let after := Objects.Leaf <$> [3; 4; 5; 6; 7; 8; 9] in
  let tr := Objects.mkTraversed h 2 false [0; 1] in
  Objects.holds h ast (before ++ t :: after) = true
  ∧ Objects.traverse_all Objects.stop_on_third before h 0 = Some tr
  ∧ Objects.stopped tr = false
  ∧ Objects.stop_on_third (Objects.state_then tr) (Objects.store_then tr)
      (Some (Objects.root t)) = Objects.Returns h 3 (Some Stop)
  ∧ Objects.count_all before + 1 < 4
  ∧ Objects.walk (Objects.recording Objects.stop_on_third) 4 h ast (0, [])
    = Some (Objects.mkWalked h
              (3, Some <$> (Objects.route tr ++ [Objects.root t]))
              Objects.Normal).
Proof.
  intros ast h before t after tr.
  assert (Objects.holds h ast (before ++ t :: after) = true) as H1
    by (vm_compute; reflexivity).
  assert (Objects.traverse_all Objects.stop_on_third before h 0 = Some tr)
    as H2 by (vm_compute; reflexivity).
  assert (Objects.stopped tr = false) as H3 by reflexivity.
  assert (Objects.stop_on_third (Objects.state_then tr) (Objects.store_then tr)
            (Some (Objects.root t)) = Objects.Returns h 3 (Some Stop)) as H4
    by reflexivity.
  assert (Objects.count_all before + 1 < 4) as H5 by (simpl; lia).
  do 5 (split; [assumption|]).
  exact (stop_returns_from_the_activation Objects.stop_on_third h ast before
           t after 0 tr h 3 4 H1 H2 H3 H4 H5).
Defined.

(** ** Replacement *)


Lemma element_Some elements i node :
  Objects.element elements i = Some node →
  (0 ≤ i < Z.of_nat (length elements))%Z.
Proof.
  unfold Objects.element.
  destruct (Z.ltb_spec i 0) as [?|?]; [done|].
  intros Hnode%lookup_lt_Some. lia.
Qed.

(** One iteration of the loop, on a node of the array. *)
Lemma walk_from_visit {St}
    (visit : St → Objects.Store → option Objects.NodeRef → Objects.Call St)
    fuel h ast elements i node s :
  Objects.arrays h !! ast = Some elements →
  Objects.element elements i = Some node →
  Objects.walk_from visit (S fuel) h ast i s =
  let '(h1, i1, s1, result) := Objects.run ast i (visit s h (Some node)) in
  match result with
  | None => Some (Objects.mkWalked h1 s1 Objects.Throw)
  | Some status =>
    match default Continue status with
    | Stop => Some (Objects.mkWalked h1 s1 Objects.Normal)
    | Skip => Objects.walk_from visit fuel h1 ast (i1 + 1) s1
    | Continue =>
      match Objects.objects h1 !! node with
      | None => Some (Objects.mkWalked h1 s1 Objects.Throw)
      | Some (Objects.RuleObject _ nodes _) =>
        inner ← Objects.walk_from visit fuel h1 nodes 0 s1;
        match Objects.completion inner with
        | Objects.Throw => Some inner
        | Objects.Normal =>
          Objects.walk_from visit fuel (Objects.store_after inner) ast
            (i1 + 1) (Objects.state_after inner)
        end
      | Some _ => Objects.walk_from visit fuel h1 ast (i1 + 1) s1
      end
    end
  end.
Proof.
  intros Hast Hnode. pose proof (element_Some _ _ _ Hnode) as Hi.
  rewrite walk_from_S, Hast, bool_decide_eq_true_2 by lia.
  cbv zeta. by rewrite Hnode.
Qed.

Section ObjectsPasses.
Context {St : Type}.
Variable visit : St → Objects.Store → option Objects.NodeRef → Objects.Call St.



End ObjectsPasses.










Section ReplaceOnce.
Variable wanted : Objects.Object → bool.
Variable newNode : Objects.NewNode.









End ReplaceOnce.



Section ReplaceOnceWalk.
Variable wanted : Objects.Object → bool.
Variable newNode : Objects.NewNode.

End ReplaceOnceWalk.

Section ReplacedSpec.
Variable wanted : Objects.Object → bool.


End ReplacedSpec.





Lemma satisfies_wants_declaration h node :
  Objects.satisfies Objects.wants_declaration h node
  = Objects.is_declaration h node.
Proof.
  unfold Objects.satisfies, Objects.is_declaration.
  by destruct (Objects.objects h !! node) as [[]|].
Qed.



Section ObjectsDefined.
Context {St : Type}.
Variable visit : St → Objects.Store → option Objects.NodeRef → Objects.Call St.
Hypothesis Hnone : Objects.never_replaces visit.
Hypothesis Hkeep : Objects.keeps_children visit.


End ObjectsDefined.



(** X15. A second call of [replaceWith] in the same visit splices at the
    index the first call has decremented, one lower than the node's, and
    the loop goes on one index lower as well.  In the middle of an array
    the second node replaces the element before the first one and both are
    visited ([replace_twice] on [comment_and_declarations]: the comment is
    gone).  At index 0 the second call splices at -1, which [splice] counts
    from the end of the array, so it replaces the last element; the loop
    goes on at -1, hands [undefined] to the visitor and throws on reading
    its [kind] ([replace_twice] on [two_declarations]). *)
Theorem second_replaceWith_splices_one_lower :
  (∀ St (visit : St → Objects.Store → option Objects.NodeRef
                 → Objects.Call St)
     fuel h ast elements i node s h0 first k1 second k2 s1 status,
     Objects.arrays h !! ast = Some elements →
     Objects.element elements i = Some node →
     visit s h (Some node)
     = Objects.ReplaceWith h0 first
         (λ h', Objects.ReplaceWith (k1 h') second
                  (λ h'', Objects.Returns (k2 h'') s1 status)) →
     let h1 := k1 (Objects.splice_array h0 ast i (Objects.spread first)) in
     let h2 :=
       k2 (Objects.splice_array h1 ast (i - 1) (Objects.spread second)) in
     Objects.walk_from visit (S fuel) h ast i s =
     match default Continue status with
     | Stop => Some (Objects.mkWalked h2 s1 Objects.Normal)
     | Skip => Objects.walk_from visit fuel h2 ast (i - 1) s1
     | Continue =>
       match Objects.objects h2 !! node with
       | None => Some (Objects.mkWalked h2 s1 Objects.Throw)
       | Some (Objects.RuleObject _ nodes _) =>
         inner ← Objects.walk_from visit fuel h2 nodes 0 s1;
         match Objects.completion inner with
         | Objects.Throw => Some inner
         | Objects.Normal =>
           Objects.walk_from visit fuel (Objects.store_after inner) ast
             (i - 1) (Objects.state_after inner)
         end
       | Some _ => Objects.walk_from visit fuel h2 ast (i - 1) s1
       end
     end)
  ∧ (let ast := Objects.array_of comment_and_declarations in
     let created :=
       Objects.plant_list two_new_declarations
         (Objects.store_of comment_and_declarations) in
     let h := created.2 in
     created.1 = [3; 4]
     ∧ Objects.forest_at 2 h ast = Some comment_and_declarations
     ∧ Objects.arrays h !! ast = Some [0; 1; 2]
     ∧ ∃ r,
         (∀ fuel, 6 ≤ fuel →
            Objects.walk (Objects.recording (Objects.replace_twice 3 4)) fuel
              h ast (false, []) = Some r)
         ∧ Objects.completion r = Objects.Normal
         ∧ (Objects.state_after r).2
           = [Some 0; Some 1; Some 4; Some 3; Some 2]
         ∧ Objects.arrays (Objects.store_after r) !! ast = Some [4; 3; 2]
         ∧ Objects.forest_at 2 (Objects.store_after r) ast
           = Some [ decl "padding" "0"; decl "margin" "0"; decl "top" "0" ])
  ∧ (let ast := Objects.array_of two_declarations in
     let created :=
       Objects.plant_list two_new_declarations
         (Objects.store_of two_declarations) in
     let h := created.2 in
     created.1 = [2; 3]
     ∧ Objects.forest_at 2 h ast = Some two_declarations
     ∧ Objects.arrays h !! ast = Some [0; 1]
     ∧ ∃ r,
         (∀ fuel, 2 ≤ fuel →
            Objects.walk (Objects.recording (Objects.replace_twice 2 3)) fuel
              h ast (false, []) = Some r)
         ∧ Objects.completion r = Objects.Throw
         ∧ (Objects.state_after r).2 = [Some 0; None]
         ∧ Objects.arrays (Objects.store_after r) !! ast = Some [2; 3]
         ∧ Objects.forest_at 2 (Objects.store_after r) ast
           = Some [ decl "margin" "0"; decl "padding" "0" ]).
Proof.
  split; [|split].
  - intros St visit fuel h ast elements i node s h0 first k1 second k2 s1
      status Hast Hnode Hvisit h1 h2.
    rewrite (walk_from_visit visit fuel h ast elements i node s Hast Hnode).
    rewrite Hvisit. simpl. fold h1. fold h2.
    by replace (i - 1 - 1 + 1)%Z with (i - 1)%Z by lia.
  - intros ast created h.
    do 3 (split; [vm_compute; reflexivity|]).
    destruct (Objects.walk (Objects.recording (Objects.replace_twice 3 4)) 6
                h ast (false, [])) as [r|] eqn:Hrun; [|by vm_compute in Hrun].
    exists r. split.
    + intros fuel Hfuel. by apply (objects_walk_from_mono _ 6).
    + vm_compute in Hrun. injection Hrun as <-.
      repeat split; vm_compute; reflexivity.
  - intros ast created h.
    do 3 (split; [vm_compute; reflexivity|]).
    destruct (Objects.walk (Objects.recording (Objects.replace_twice 2 3)) 2
                h ast (false, [])) as [r|] eqn:Hrun; [|by vm_compute in Hrun].
    exists r. split.
    + intros fuel Hfuel. by apply (objects_walk_from_mono _ 2).
    + vm_compute in Hrun. injection Hrun as <-.
      repeat split; vm_compute; reflexivity.
Qed.

Lemma second_replaceWith_splices_one_lower_witness :
  let ast := Objects.array_of comment_and_declarations in
  let created :=
    Objects.plant_list two_new_declarations
      (Objects.store_of comment_and_declarations) in
  let h := created.2 in
  let visit := Objects.replace_twice 3 4 in
  Objects.arrays h !! ast = Some [0; 1; 2]
  ∧ Objects.element [0; 1; 2] 1 = Some 1
  ∧ visit false h (Some 1)
    = Objects.ReplaceWith h (Objects.One 3)
        (λ h', Objects.ReplaceWith h' (Objects.One 4)
                 (λ h'', Objects.Returns h'' true None))
  ∧ Objects.walk_from visit 5 h ast 1 false
    = Objects.walk_from visit 4
        (Objects.splice_array (Objects.splice_array h ast 1 [3]) ast 0 [4])
        ast 0 true.
Proof.
  intros ast created h visit.
  assert (Objects.arrays h !! ast = Some [0; 1; 2]) as Hast
    by (vm_compute; reflexivity).
  assert (Objects.element [0; 1; 2] 1 = Some 1) as Hnode by reflexivity.
  assert (visit false h (Some 1)
          = Objects.ReplaceWith h (Objects.One 3)
              (λ h', Objects.ReplaceWith h' (Objects.One 4)
                       (λ h'', Objects.Returns h'' true None))) as Hvisit
    by (vm_compute; reflexivity).
  do 3 (split; [assumption|]).
  exact (proj1 second_replaceWith_splices_one_lower bool visit 4 h ast
           [0; 1; 2] 1%Z 1 false h (Objects.One 3) (λ h', h') (Objects.One 4)
           (λ h', h') true None Hast Hnode Hvisit).
Defined.

(** X16. A node that [replaceWith] has put in the array is handed to the
    visitor like any other, and the visitor may replace it in turn.
    [unwrap_and_mark] on [nested_rules]: the rule [.a] is replaced by its
    child [.b], which is visited in the child array of [.a] and replaced
    there, and visited again at the top level and replaced there; the
    declaration is visited four times, twice for each of the two rules it
    was in, and is marked four times.  The top level is left with the two
    declarations. *)
Theorem inserted_nodes_are_replaced_in_turn :
  let ast := Objects.array_of nested_rules in
  let h := Objects.store_of nested_rules in
  Objects.forest_at 3 h ast = Some nested_rules
  ∧ Objects.shapes_at 3 h ast
    = [ Objects.Branch 2 1 [ Objects.Branch 1 0 [ Objects.Leaf 0 ] ];
        Objects.Leaf 3 ]
  ∧ ∃ r,
      (∀ fuel, 5 ≤ fuel →
         Objects.walk (Objects.recording Objects.unwrap_and_mark) fuel h ast
           (tt, []) = Some r)
      ∧ Objects.completion r = Objects.Normal
      ∧ (Objects.state_after r).2
        = [ Some 2; Some 1; Some 0; Some 0; Some 1; Some 0; Some 0; Some 3 ]
      ∧ Objects.arrays (Objects.store_after r) !! ast = Some [0; 3]
      ∧ Objects.forest_at 3 (Objects.store_after r) ast
        = Some [ Declaration "color" (Some "red!!!!") false [];
                 Declaration "top" (Some "0!") false [] ].
Proof.
  intros ast h.
  do 2 (split; [vm_compute; reflexivity|]).
  destruct (Objects.walk (Objects.recording Objects.unwrap_and_mark) 5 h ast
              (tt, [])) as [r|] eqn:Hrun; [|by vm_compute in Hrun].
  exists r. split.
  - intros fuel Hfuel. by apply (objects_walk_from_mono _ 5).
  - vm_compute in Hrun. injection Hrun as <-.
    repeat split; vm_compute; reflexivity.
Qed.
